(** * hof_synth: a typed, depth-bounded random expression synthesizer

    Shallow embedding of [func_synth.py] and the properties of its
    synthesis engine, evaluator, renderer and function wrapper.

    Python objects are modelled as follows.
    - classes ([SynthInt], [SynthIntConst], ...) are the constructors of
      [Cls.t]; a list of operators such as [int_ops] is a [list Cls.t];
    - instances built by the productions are the constructors of [node],
      named after their class;
    - run-time values are [value] (int, bool, str, list);
    - the environment dict is a [gmap string value];
    - the operator pools are lists of classes, as in the source, so a
      pool may hold any class; [registered] says that it holds
      productions of its own type;
    - exceptions are [exn]; a computation that may raise returns [res];
    - [random.choice] draws from an oracle [nat -> nat], the position in
      the oracle being threaded through synthesis as state. *)

From Stdlib Require Import ZArith Ascii String.
From stdpp Require Import base strings gmap list fin_maps pretty.

Local Open Scope Z_scope.

(** ** Classes *)

Module Cls.
(** The classes declared by the module, in declaration order. *)
Inductive t : Set :=
| AbstractSynth
| SynthArg
| SynthInt | SynthIntConst | SynthIntAdd | SynthListLen
| SynthBool | SynthBoolConst | SynthBoolAnd
| SynthStr | SynthStrConst | SynthStrAdd
| SynthList.

#[global] Instance eq_dec : EqDecision t.
Proof. solve_decision. Defined.

(** [==] and [!=] on class objects: identity. *)
Definition eqb (a b : t) : bool := bool_decide (a = b).
Definition neqb (a b : t) : bool := negb (eqb a b).

(** The direct base class ([None] for the root). *)
Definition base (c : t) : option t :=
  match c with
  | AbstractSynth => None
  | SynthArg | SynthInt | SynthBool | SynthStr | SynthList => Some AbstractSynth
  | SynthIntConst | SynthIntAdd | SynthListLen => Some SynthInt
  | SynthBoolConst | SynthBoolAnd => Some SynthBool
  | SynthStrConst | SynthStrAdd => Some SynthStr
  end.
End Cls.

(** ** Values, literals and exceptions *)

(** Run-time Python values that trees are evaluated to. *)
#[warnings="-register-all"]
Inductive value : Type :=
| VInt (z : Z)
| VBool (b : bool)
| VStr (s : string)
| VList (l : list value).

(** What a literal pool can hold: [int_literals : List[int]],
    [bool_literals : List[bool]], [str_literals : List[str]]. *)
Inductive literal : Type :=
| LInt (z : Z)
| LBool (b : bool)
| LStr (s : string).

Definition value_of_literal (c : literal) : value :=
  match c with
  | LInt z => VInt z
  | LBool b => VBool b
  | LStr s => VStr s
  end.

Inductive exn : Type :=
| NotImplementedError
| KeyError (msg : string)
| ValueError (msg : string)
| RuntimeError (msg : string)
| NameError (name : string)
| TypeError
| IndexError
| RecursionError.

Inductive res (A : Type) : Type :=
| Ok (a : A)
| Raise (e : exn).
Arguments Ok {A} a.
Arguments Raise {A} e.

Definition res_bind {A B} (r : res A) (k : A -> res B) : res B :=
  match r with
  | Ok a => k a
  | Raise e => Raise e
  end.

(** ** Expression nodes *)

(** A declared parameter: [SynthArg(name, argtype)]. *)
Record arg : Type := mk_arg { name : string; argtype : Cls.t }.

(** Instances of the production classes. The constant classes store
    whatever [val] their constructor was given. *)
Inductive node : Type :=
| SynthArg (a : arg)
| SynthIntConst (val : literal)
| SynthIntAdd (left right : node)
| SynthListLen (inner : node)
| SynthBoolConst (val : literal)
| SynthBoolAnd (left right : node)
| SynthStrConst (val : literal)
| SynthStrAdd (left right : node).

(** [type(node)] *)
Definition class_of (n : node) : Cls.t :=
  match n with
  | SynthArg _ => Cls.SynthArg
  | SynthIntConst _ => Cls.SynthIntConst
  | SynthIntAdd _ _ => Cls.SynthIntAdd
  | SynthListLen _ => Cls.SynthListLen
  | SynthBoolConst _ => Cls.SynthBoolConst
  | SynthBoolAnd _ _ => Cls.SynthBoolAnd
  | SynthStrConst _ => Cls.SynthStrConst
  | SynthStrAdd _ _ => Cls.SynthStrAdd
  end.

(** The semantic type a node declares: the [argtype] of a parameter, the
    base class of a production. *)
Definition declared_type (n : node) : Cls.t :=
  match n with
  | SynthArg a => argtype a
  | _ => default Cls.AbstractSynth (Cls.base (class_of n))
  end.

(** The semantic type of a run-time value. *)
Definition type_of_value (v : value) : Cls.t :=
  match v with
  | VInt _ => Cls.SynthInt
  | VBool _ => Cls.SynthBool
  | VStr _ => Cls.SynthStr
  | VList _ => Cls.SynthList
  end.

(** ** Evaluation *)

(** Python truthiness, as used by [and]. *)
Definition truthy (v : value) : bool :=
  match v with
  | VInt z => negb (z =? 0)
  | VBool b => b
  | VStr s => match s with EmptyString => false | String _ _ => true end
  | VList l => match l with [] => false | _ => true end
  end.

Definition int_of_bool (b : bool) : Z := if b then 1 else 0.

(** The binary [+] on the values above: numbers add (a bool counts as 0
    or 1), strings and lists concatenate, anything else is a TypeError. *)
Definition py_add (a b : value) : res value :=
  match a, b with
  | VInt x, VInt y => Ok (VInt (x + y))
  | VInt x, VBool y => Ok (VInt (x + int_of_bool y))
  | VBool x, VInt y => Ok (VInt (int_of_bool x + y))
  | VBool x, VBool y => Ok (VInt (int_of_bool x + int_of_bool y))
  | VStr x, VStr y => Ok (VStr (x +:+ y))
  | VList x, VList y => Ok (VList (x ++ y))
  | _, _ => Raise TypeError
  end.

(** [len]: defined on strings and lists. *)
Definition py_len (a : value) : res value :=
  match a with
  | VStr s => Ok (VInt (Z.of_nat (String.length s)))
  | VList l => Ok (VInt (Z.of_nat (length l)))
  | _ => Raise TypeError
  end.

Definition key_error_msg (n : string) : string :=
  ("arg " +:+ n +:+ " not in env")%string.

Fixpoint evaluate (n : node) (e : gmap string value) : res value :=
  match n with
  | SynthArg a =>
      match e !! name a with
      | None => Raise (KeyError (key_error_msg (name a)))
      | Some v => Ok v
      end
  | SynthIntConst val => Ok (value_of_literal val)
  | SynthIntAdd l r =>
      res_bind (evaluate l e) (fun x =>
      res_bind (evaluate r e) (fun y => py_add x y))
  | SynthListLen i =>
      res_bind (evaluate i e) py_len
  | SynthBoolConst val => Ok (value_of_literal val)
  | SynthBoolAnd l r =>
      res_bind (evaluate l e) (fun x =>
      if truthy x then evaluate r e else Ok x)
  | SynthStrConst val => Ok (value_of_literal val)
  | SynthStrAdd l r =>
      res_bind (evaluate l e) (fun x =>
      res_bind (evaluate r e) (fun y => py_add x y))
  end.

(** ** Rendering ([__str__]) *)

(** [str(z)] for an int: decimal, with a leading minus sign. *)
Definition str_int (z : Z) : string := pretty z.

(** [str(val)] of a stored literal. *)
Definition py_str (c : literal) : string :=
  match c with
  | LInt z => str_int z
  | LBool b => if b then "True" else "False"
  | LStr s => s
  end.

Definition dquote : string := String "034"%char EmptyString.

Fixpoint render (n : node) : string :=
  match n with
  | SynthArg a => name a
  | SynthIntConst val => py_str val
  | SynthIntAdd l r => "(" +:+ render l +:+ " + " +:+ render r +:+ ")"
  | SynthListLen i => "len(" +:+ render i +:+ ")"
  | SynthBoolConst val => py_str val
  | SynthBoolAnd l r => "(" +:+ render l +:+ " and " +:+ render r +:+ ")"
  | SynthStrConst val => dquote +:+ py_str val +:+ dquote
  | SynthStrAdd l r => "(" +:+ render l +:+ " + " +:+ render r +:+ ")"
  end.

(** ** Synthesis *)

(** The caller-supplied configuration that every [synthesize] receives
    and hands on unchanged. *)
Record pools : Type := mk_pools {
  input_args : list arg;
  output_type : Cls.t;
  int_literals : list Z;
  int_ops : list Cls.t;
  bool_literals : list bool;
  bool_ops : list Cls.t;
  str_literals : list string;
  str_ops : list Cls.t
}.

(** What [class_choices] holds: production classes and parameter
    instances, mixed in one list. *)
Inductive candidate : Type :=
| CClass (c : Cls.t)
| CArg (a : arg).

(** Computations that may raise and that consume random draws: the
    state is the number of draws made so far. *)
Definition M (A : Type) : Type := nat -> res A * nat.

Definition ret {A} (a : A) : M A := fun p => (Ok a, p).
Definition raise {A} (e : exn) : M A := fun p => (Raise e, p).
Definition bind {A B} (m : M A) (k : A -> M B) : M B :=
  fun p =>
    match m p with
    | (Ok a, p') => k a p'
    | (Raise e, p') => (Raise e, p')
    end.

Notation "'let!' x ':=' m 'in' k" := (bind m (fun x => k))
  (at level 10, x name, m at level 100, k at level 200).

(** Truth value of a list: non-empty. *)
Definition nonempty {A} (l : list A) : bool :=
  match l with [] => false | _ :: _ => true end.

Definition msg_no_int_literals : string := "not enough int literals to use for synthesis".
Definition msg_no_str_literals : string := "no string literals to use for synthesis".
Definition msg_no_depth (c : string) : string :=
  "attempting to synthesize " +:+ c +:+ " without enough depth".
Definition msg_arity : string := "too many or not enough arguments".

Section Synthesis.
(** The source of randomness: the [k]-th draw of the run. *)
Variable oracle : nat -> nat.

(** [random.choice]: IndexError on an empty sequence, otherwise the
    element at a random index below the length. *)
Definition choice {A} (seq : list A) : M A :=
  fun p =>
    match seq with
    | [] => (Raise IndexError, p)
    | x :: _ => (Ok (nth (oracle p mod length seq)%nat seq x), S p)
    end.

(** The candidate lists of the four type classes. *)
Definition int_args (cx : pools) : list arg :=
  List.filter (fun a => Cls.eqb (argtype a) Cls.SynthInt) (input_args cx).
Definition valid_int_ops (depth : Z) (cx : pools) : list Cls.t :=
  List.filter (fun op =>
      (Cls.eqb op Cls.SynthIntConst && nonempty (int_literals cx))
      || (Cls.neqb op Cls.SynthIntConst && (1 <? depth)))
    (int_ops cx).

Definition bool_args (cx : pools) : list arg :=
  List.filter (fun a => Cls.eqb (argtype a) Cls.SynthBool) (input_args cx).
Definition valid_bool_ops (depth : Z) (cx : pools) : list Cls.t :=
  List.filter (fun op => Cls.eqb op Cls.SynthBoolConst || (1 <? depth))
    (bool_ops cx).

Definition str_args (cx : pools) : list arg :=
  List.filter (fun a => Cls.eqb (argtype a) Cls.SynthStr) (input_args cx).
Definition valid_str_ops (depth : Z) (cx : pools) : list Cls.t :=
  List.filter (fun op =>
      (Cls.eqb op Cls.SynthStrConst && nonempty (str_literals cx))
      || (Cls.neqb op Cls.SynthStrConst && (1 <? depth)))
    (str_ops cx).

Definition list_args (cx : pools) : list arg :=
  List.filter (fun a => Cls.eqb (argtype a) Cls.SynthList) (input_args cx).

(** [class_choices] as each type class builds it; [SynthBool] never
    binds one (see [synthesize]). *)
Definition class_choices (T : Cls.t) (depth : Z) (cx : pools) : option (list candidate) :=
  match T with
  | Cls.SynthInt => Some (map CClass (valid_int_ops depth cx) ++ map CArg (int_args cx))
  | Cls.SynthStr => Some (map CClass (valid_str_ops depth cx) ++ map CArg (str_args cx))
  | Cls.SynthList => Some (map CArg (list_args cx))
  | _ => None
  end.

(** [target.synthesize(depth, input_args, output_type, ...)] for a
    class or a parameter instance [target]. [fuel] bounds the nesting
    of [synthesize] frames, as the interpreter's recursion limit does. *)
Fixpoint synthesize (fuel : nat) (target : candidate) (depth : Z) (cx : pools)
    {struct fuel} : M node :=
  match fuel with
  | O => raise RecursionError
  | S fuel =>
    match target with
    | CArg a => ret (SynthArg a)
    | CClass Cls.AbstractSynth => raise NotImplementedError
    | CClass Cls.SynthArg =>
        (* the instance method called on the class: one argument short *)
        raise TypeError
    | CClass Cls.SynthInt =>
        let int_args := int_args cx in
        let valid_int_ops := valid_int_ops depth cx in
        let class_choices := map CClass valid_int_ops ++ map CArg int_args in
        let! c := choice class_choices in
        synthesize fuel c depth cx
    | CClass Cls.SynthIntConst =>
        if negb (nonempty (int_literals cx)) then raise (ValueError msg_no_int_literals)
        else let! v := choice (int_literals cx) in ret (SynthIntConst (LInt v))
    | CClass Cls.SynthIntAdd =>
        if depth <=? 1 then raise (RuntimeError (msg_no_depth "SynthIntAdd"))
        else
          let! l := synthesize fuel (CClass Cls.SynthInt) (depth - 1) cx in
          let! r := synthesize fuel (CClass Cls.SynthInt) (depth - 1) cx in
          ret (SynthIntAdd l r)
    | CClass Cls.SynthListLen =>
        if depth <=? 1 then raise (RuntimeError (msg_no_depth "SynthListLen"))
        else
          let! i := synthesize fuel (CClass Cls.SynthList) (depth - 1) cx in
          ret (SynthListLen i)
    | CClass Cls.SynthBool =>
        let bool_args := bool_args cx in
        let valid_bool_ops := valid_bool_ops depth cx in
        (* class_choices = valid_int_ops + int_args: neither name is
           bound in this method or in the module *)
        raise (NameError "valid_int_ops")
    | CClass Cls.SynthBoolConst =>
        if negb (nonempty (bool_literals cx)) then raise (ValueError msg_no_int_literals)
        else let! v := choice (bool_literals cx) in ret (SynthIntConst (LBool v))
    | CClass Cls.SynthBoolAnd =>
        if depth <=? 1 then raise (RuntimeError (msg_no_depth "SynthBoolAnd"))
        else
          let! l := synthesize fuel (CClass Cls.SynthBool) (depth - 1) cx in
          let! r := synthesize fuel (CClass Cls.SynthBool) (depth - 1) cx in
          ret (SynthBoolAnd l r)
    | CClass Cls.SynthStr =>
        let str_args := str_args cx in
        let valid_str_ops := valid_str_ops depth cx in
        let class_choices := map CClass valid_str_ops ++ map CArg str_args in
        let! c := choice class_choices in
        synthesize fuel c depth cx
    | CClass Cls.SynthStrConst =>
        if negb (nonempty (str_literals cx)) then raise (ValueError msg_no_str_literals)
        else let! v := choice (str_literals cx) in ret (SynthStrConst (LStr v))
    | CClass Cls.SynthStrAdd =>
        if depth <=? 1 then raise (RuntimeError (msg_no_depth "SynthStrAdd"))
        else
          let! l := synthesize fuel (CClass Cls.SynthStr) (depth - 1) cx in
          let! r := synthesize fuel (CClass Cls.SynthStr) (depth - 1) cx in
          ret (SynthStrAdd l r)
    | CClass Cls.SynthList =>
        let list_args := list_args cx in
        let class_choices := map CArg list_args in
        let! c := choice class_choices in
        synthesize fuel c depth cx
    end
  end.

(** The dict comprehension over [zip(input_args, args)]: entries are
    stored in order, a later one replacing an earlier one of the same
    name. *)
Definition store (m : gmap string value) (p : arg * value) : gmap string value :=
  <[name p.1 := p.2]> m.
Definition make_env (input_args : list arg) (args : list value) : gmap string value :=
  foldl store ∅ (zip input_args args).

(** The closure returned by [make_func]. *)
Definition inner_func (input_args : list arg) (expr : node) (args : list value)
    : res value :=
  if negb (length input_args =? length args)%nat
  then Raise (ValueError msg_arity)
  else evaluate expr (make_env input_args args).

(** [make_func]: the line it prints and the function it returns. *)
Definition make_func (fuel : nat) (depth : Z) (cx : pools)
    : M (string * (list value -> res value)) :=
  let! expr := synthesize fuel (CClass (output_type cx)) depth cx in
  let arg_str := String.concat "," (map name (input_args cx)) in
  ret ("lambda " +:+ arg_str +:+ ": " +:+ render expr,
       inner_func (input_args cx) expr).
End Synthesis.

(** The configuration of the module's entry point. *)
Definition main_pools : pools :=
  {| input_args := [mk_arg "l" Cls.SynthList];
     output_type := Cls.SynthInt;
     int_literals := map Z.of_nat (seq 0 10);
     int_ops := [Cls.SynthIntConst; Cls.SynthIntAdd; Cls.SynthListLen];
     bool_literals := [true; false];
     bool_ops := [Cls.SynthBoolConst; Cls.SynthBoolAnd];
     str_literals := ["hello"%string];
     str_ops := [Cls.SynthStrConst; Cls.SynthStrAdd] |}.


(** A configuration with Boolean literals and both Boolean operators. *)
Definition bool_pools : pools :=
  {| input_args := [mk_arg "b" Cls.SynthBool];
     output_type := Cls.SynthBool;
     int_literals := [];
     int_ops := [];
     bool_literals := [true; false];
     bool_ops := [Cls.SynthBoolConst; Cls.SynthBoolAnd];
     str_literals := [];
     str_ops := [] |}.

(** Only the literal [True] and the Boolean constant production. *)
Definition true_pools : pools :=
  {| input_args := [];
     output_type := Cls.SynthBool;
     int_literals := [];
     int_ops := [];
     bool_literals := [true];
     bool_ops := [Cls.SynthBoolConst];
     str_literals := [];
     str_ops := [] |}.

(** No integer literal, only the constant production, a List parameter
    and depth 5. *)
Definition exhausted_pools : pools :=
  {| input_args := [mk_arg "l" Cls.SynthList];
     output_type := Cls.SynthInt;
     int_literals := [];
     int_ops := [Cls.SynthIntConst];
     bool_literals := [true; false];
     bool_ops := [Cls.SynthBoolConst; Cls.SynthBoolAnd];
     str_literals := ["hello"%string];
     str_ops := [Cls.SynthStrConst; Cls.SynthStrAdd] |}.

(** Two Integer parameters and the tree that adds them. *)
Definition two_params : list arg :=
  [mk_arg "x" Cls.SynthInt; mk_arg "y" Cls.SynthInt].
Definition sum_tree : node :=
  SynthIntAdd (SynthArg (mk_arg "x" Cls.SynthInt))
              (SynthArg (mk_arg "y" Cls.SynthInt)).

(** The tree drawn for the entry point's configuration by the oracle
    [k |-> 7k + 1]. *)
Definition main_tree : node :=
  SynthIntAdd
    (SynthListLen (SynthArg (mk_arg "l" Cls.SynthList)))
    (SynthIntAdd
       (SynthListLen (SynthArg (mk_arg "l" Cls.SynthList)))
       (SynthIntAdd (SynthIntConst (LInt 7)) (SynthIntConst (LInt 1)))).

(** ** Measures and predicates on trees and configurations *)

(** Longest chain of nested operator nodes from the root to a leaf;
    constants and parameter references are leaves. *)
Fixpoint nt_depth (n : node) : nat :=
  match n with
  | SynthArg _ | SynthIntConst _ | SynthBoolConst _ | SynthStrConst _ => 0
  | SynthListLen i => S (nt_depth i)
  | SynthIntAdd l r | SynthBoolAnd l r | SynthStrAdd l r =>
      S (Nat.max (nt_depth l) (nt_depth r))
  end.

(** The tree contains a reference to the parameter called [x]. *)
Fixpoint has_param (x : string) (n : node) : bool :=
  match n with
  | SynthArg a => bool_decide (name a = x)
  | SynthIntConst _ | SynthBoolConst _ | SynthStrConst _ => false
  | SynthListLen i => has_param x i
  | SynthIntAdd l r | SynthBoolAnd l r | SynthStrAdd l r =>
      has_param x l || has_param x r
  end.

(** The tree contains no [SynthBoolAnd] node. *)
Fixpoint and_free (n : node) : bool :=
  match n with
  | SynthArg _ | SynthIntConst _ | SynthBoolConst _ | SynthStrConst _ => true
  | SynthListLen i => and_free i
  | SynthBoolAnd _ _ => false
  | SynthIntAdd l r | SynthStrAdd l r => and_free l && and_free r
  end.

Definition is_const (n : node) : bool :=
  match n with
  | SynthIntConst _ | SynthBoolConst _ | SynthStrConst _ => true
  | _ => false
  end.

(** The [val] attribute of a constant node. *)
Definition val_of (n : node) : option literal :=
  match n with
  | SynthIntConst v | SynthBoolConst v | SynthStrConst v => Some v
  | _ => None
  end.

(** Every constant in the tree holds a literal of the pool of its type. *)
Fixpoint consts_in_pools (cx : pools) (n : node) : Prop :=
  match n with
  | SynthArg _ => True
  | SynthIntConst v => ∃ z, v = LInt z ∧ z ∈ int_literals cx
  | SynthBoolConst v => ∃ b, v = LBool b ∧ b ∈ bool_literals cx
  | SynthStrConst v => ∃ s, v = LStr s ∧ s ∈ str_literals cx
  | SynthListLen i => consts_in_pools cx i
  | SynthIntAdd l r | SynthBoolAnd l r | SynthStrAdd l r =>
      consts_in_pools cx l ∧ consts_in_pools cx r
  end.

(** Each operator pool holds production classes of its own type: the
    direct subclasses of [SynthInt], [SynthBool] and [SynthStr]. *)
Definition registered (cx : pools) : Prop :=
  Forall (fun op => Cls.base op = Some Cls.SynthInt) (int_ops cx)
  ∧ Forall (fun op => Cls.base op = Some Cls.SynthBool) (bool_ops cx)
  ∧ Forall (fun op => Cls.base op = Some Cls.SynthStr) (str_ops cx).

(** The four classes that stand for a semantic type. *)
Definition type_classes : list Cls.t :=
  [Cls.SynthInt; Cls.SynthBool; Cls.SynthStr; Cls.SynthList].

(** Frames that are enough to synthesize a type at a given depth. *)
Definition enough_fuel (depth : Z) : nat := 2 * Z.to_nat depth + 2.

(** The literals a constant production draws from. *)
Definition literal_pool (c : Cls.t) (cx : pools) : list literal :=
  match c with
  | Cls.SynthIntConst => map LInt (int_literals cx)
  | Cls.SynthBoolConst => map LBool (bool_literals cx)
  | Cls.SynthStrConst => map LStr (str_literals cx)
  | _ => []
  end.

(** The run ended because the frames ran out. *)
Definition overflows {A} (r : res A * nat) : Prop := r.1 = Raise RecursionError.

(** Frames that are enough for a target at a given depth when the pools
    are registered. *)
Definition frames (target : candidate) (depth : Z) : nat :=
  match target with
  | CClass Cls.SynthInt | CClass Cls.SynthStr => 2 * Z.to_nat depth + 2
  | CClass Cls.SynthIntAdd | CClass Cls.SynthStrAdd => 2 * Z.to_nat depth + 1
  | CClass Cls.SynthListLen => 3
  | CClass Cls.SynthList | CClass Cls.SynthBoolAnd => 2
  | _ => 1
  end.

(** ** The grammar the type classes draw from *)

(** Trees of the Integer type within a depth budget: an Integer
    parameter, a constant of [int_literals], a sum of two Integer trees
    one level lower, or the length of a List parameter; an operator is
    there only if [int_ops] lists it and the budget exceeds 1. *)
Fixpoint int_tree (cx : pools) (depth : Z) (t : node) : Prop :=
  match t with
  | SynthArg a => a ∈ int_args cx
  | SynthIntConst v =>
      Cls.SynthIntConst ∈ int_ops cx ∧ ∃ z, v = LInt z ∧ z ∈ int_literals cx
  | SynthIntAdd l r =>
      Cls.SynthIntAdd ∈ int_ops cx ∧ 1 < depth
      ∧ int_tree cx (depth - 1) l ∧ int_tree cx (depth - 1) r
  | SynthListLen i =>
      Cls.SynthListLen ∈ int_ops cx ∧ 1 < depth
      ∧ ∃ a, i = SynthArg a ∧ a ∈ list_args cx
  | _ => False
  end.

(** Trees of the String type within a depth budget. *)
Fixpoint str_tree (cx : pools) (depth : Z) (t : node) : Prop :=
  match t with
  | SynthArg a => a ∈ str_args cx
  | SynthStrConst v =>
      Cls.SynthStrConst ∈ str_ops cx ∧ ∃ s, v = LStr s ∧ s ∈ str_literals cx
  | SynthStrAdd l r =>
      Cls.SynthStrAdd ∈ str_ops cx ∧ 1 < depth
      ∧ str_tree cx (depth - 1) l ∧ str_tree cx (depth - 1) r
  | _ => False
  end.

(** Trees of the List type: the List parameters. *)
Definition list_tree (cx : pools) (t : node) : Prop :=
  ∃ a, t = SynthArg a ∧ a ∈ list_args cx.

Definition derivable (cx : pools) (T : Cls.t) (depth : Z) (t : node) : Prop :=
  match T with
  | Cls.SynthInt => int_tree cx depth t
  | Cls.SynthStr => str_tree cx depth t
  | Cls.SynthList => list_tree cx t
  | _ => False
  end.

(** The type classes whose [synthesize] can return. *)
Definition working_types : list Cls.t :=
  [Cls.SynthInt; Cls.SynthStr; Cls.SynthList].

(** Number of nodes, and number of constants among them. *)
Fixpoint size (n : node) : nat :=
  match n with
  | SynthArg _ | SynthIntConst _ | SynthBoolConst _ | SynthStrConst _ => 1
  | SynthListLen i => S (size i)
  | SynthIntAdd l r | SynthBoolAnd l r | SynthStrAdd l r => S (size l + size r)
  end.

Fixpoint consts (n : node) : nat :=
  match n with
  | SynthArg _ => 0
  | SynthIntConst _ | SynthBoolConst _ | SynthStrConst _ => 1
  | SynthListLen i => consts i
  | SynthIntAdd l r | SynthBoolAnd l r | SynthStrAdd l r => consts l + consts r
  end.

(** The tree holds no instance of a Boolean class. *)
Fixpoint bool_free (n : node) : bool :=
  match n with
  | SynthArg _ | SynthIntConst _ | SynthStrConst _ => true
  | SynthBoolConst _ | SynthBoolAnd _ _ => false
  | SynthListLen i => bool_free i
  | SynthIntAdd l r | SynthStrAdd l r => bool_free l && bool_free r
  end.

(** The environment binds every parameter to a value of its declared
    type. *)
Definition env_typed (params : list arg) (e : gmap string value) : Prop :=
  ∀ a, a ∈ params → ∃ v, e !! name a = Some v ∧ type_of_value v = argtype a.

(** Two oracles give the same draws from position [p] up to [p']. *)
Definition agree (o1 o2 : nat -> nat) (p p' : nat) : Prop :=
  ∀ k, (p ≤ k < p')%nat → o1 k = o2 k.

(** A computation run with [o1] ends no earlier than it starts and reads
    only the draws in between: with an oracle that agrees on them it
    runs the same. *)
Definition local (o1 o2 : nat -> nat) {A} (m1 m2 : M A) : Prop :=
  ∀ p r p', m1 p = (r, p') →
    (p ≤ p')%nat ∧ (agree o1 o2 p p' → m2 p = (r, p')).

(** A terminal of the type is available, and so is a List parameter if
    the length operator is enabled: enough for synthesis of the type to
    return at every depth. *)
Definition feasible (T : Cls.t) (cx : pools) : bool :=
  match T with
  | Cls.SynthInt =>
      ((bool_decide (Cls.SynthIntConst ∈ int_ops cx) && nonempty (int_literals cx))
       || nonempty (int_args cx))
      && (negb (bool_decide (Cls.SynthListLen ∈ int_ops cx))
          || nonempty (list_args cx))
  | Cls.SynthStr =>
      (bool_decide (Cls.SynthStrConst ∈ str_ops cx) && nonempty (str_literals cx))
      || nonempty (str_args cx)
  | Cls.SynthList => nonempty (list_args cx)
  | _ => false
  end.

(** What [target.synthesize] returns at a depth: the shape of the node
    each class builds, with children of the grammar of their type. The
    Boolean constant class builds an Integer-constant node; the other
    Boolean classes, [AbstractSynth] and the class [SynthArg] return
    nothing. *)
Definition target_tree (cx : pools) (target : candidate) (depth : Z) (t : node)
    : Prop :=
  match target with
  | CArg a => t = SynthArg a
  | CClass Cls.SynthInt => int_tree cx depth t
  | CClass Cls.SynthIntConst => ∃ z, t = SynthIntConst (LInt z) ∧ z ∈ int_literals cx
  | CClass Cls.SynthIntAdd =>
      1 < depth ∧ ∃ l r, t = SynthIntAdd l r
        ∧ int_tree cx (depth - 1) l ∧ int_tree cx (depth - 1) r
  | CClass Cls.SynthListLen =>
      1 < depth ∧ ∃ a, t = SynthListLen (SynthArg a) ∧ a ∈ list_args cx
  | CClass Cls.SynthBoolConst =>
      ∃ b, t = SynthIntConst (LBool b) ∧ b ∈ bool_literals cx
  | CClass Cls.SynthStr => str_tree cx depth t
  | CClass Cls.SynthStrConst => ∃ s, t = SynthStrConst (LStr s) ∧ s ∈ str_literals cx
  | CClass Cls.SynthStrAdd =>
      1 < depth ∧ ∃ l r, t = SynthStrAdd l r
        ∧ str_tree cx (depth - 1) l ∧ str_tree cx (depth - 1) r
  | CClass Cls.SynthList => list_tree cx t
  | CClass _ => False
  end.

(** Oracles built from others: one draw replaced, and two oracles joined
    at a position. *)
Definition patch (i p : nat) (o : nat -> nat) : nat -> nat :=
  fun k => if (k =? p)%nat then i else o k.
Definition splice (p1 : nat) (o_l o_r : nat -> nat) : nat -> nat :=
  fun k => if (k <? p1)%nat then o_l k else o_r k.

(** Some sequence of draws makes [target.synthesize] return [t],
    wherever in the run it starts. *)
Definition reaches (cx : pools) (target : candidate) (depth : Z) (t : node) : Prop :=
  ∀ p, ∃ oracle fuel p', synthesize oracle fuel target depth cx p = (Ok t, p').

(** What makes a call of [target.synthesize] return at every draw: for
    a type class that a leaf is available ([feasible]), for a constant
    class a literal, for an operator class depth above 1 and feasible
    operands. *)
Definition target_feasible (cx : pools) (target : candidate) (depth : Z) : Prop :=
  match target with
  | CArg _ => True
  | CClass Cls.SynthInt => feasible Cls.SynthInt cx = true
  | CClass Cls.SynthIntConst => int_literals cx ≠ []
  | CClass Cls.SynthIntAdd => 1 < depth ∧ feasible Cls.SynthInt cx = true
  | CClass Cls.SynthListLen => 1 < depth ∧ list_args cx ≠ []
  | CClass Cls.SynthBoolConst => bool_literals cx ≠ []
  | CClass Cls.SynthStr => feasible Cls.SynthStr cx = true
  | CClass Cls.SynthStrConst => str_literals cx ≠ []
  | CClass Cls.SynthStrAdd => 1 < depth ∧ feasible Cls.SynthStr cx = true
  | CClass Cls.SynthList => list_args cx ≠ []
  | CClass _ => False
  end.

(** The test a production class makes before it builds its node holds:
    a literal for a constant, depth above 1 for an operator. *)
Definition guarded (cx : pools) (target : candidate) (depth : Z) : Prop :=
  match target with
  | CArg _ | CClass Cls.SynthInt | CClass Cls.SynthStr | CClass Cls.SynthList => True
  | CClass Cls.SynthIntConst => int_literals cx ≠ []
  | CClass Cls.SynthStrConst => str_literals cx ≠ []
  | CClass Cls.SynthIntAdd | CClass Cls.SynthListLen | CClass Cls.SynthStrAdd =>
      1 < depth
  | CClass _ => False
  end.

(** Draws a successful call makes for the tree it returns: one per node
    chosen by a type class and one per constant. *)
Definition draws (target : candidate) (t : node) : nat :=
  match target with
  | CClass Cls.SynthInt | CClass Cls.SynthStr | CClass Cls.SynthList =>
      size t + consts t
  | _ => size t + consts t - 1
  end.

(** Whether the pools hold enough to build some tree of a type at a
    depth (the check the TODO at the head of the source asks for): a
    leaf of the type, or for Integer above depth 1 the length of a List
    parameter. *)
Definition can_synthesize (T : Cls.t) (depth : Z) (cx : pools) : bool :=
  match T with
  | Cls.SynthInt =>
      (bool_decide (Cls.SynthIntConst ∈ int_ops cx) && nonempty (int_literals cx))
      || nonempty (int_args cx)
      || ((1 <? depth) && bool_decide (Cls.SynthListLen ∈ int_ops cx)
          && nonempty (list_args cx))
  | Cls.SynthStr =>
      (bool_decide (Cls.SynthStrConst ∈ str_ops cx) && nonempty (str_literals cx))
      || nonempty (str_args cx)
  | Cls.SynthList => nonempty (list_args cx)
  | _ => false
  end.

(** Evaluation in [e] gets as far as looking up the name [x]: a
    reference to [x] that the operators before it let through. [+] and
    [len] evaluate all their operands; [and] evaluates its right operand
    only after a truthy left value. *)
Fixpoint reached (x : string) (n : node) (e : gmap string value) : bool :=
  match n with
  | SynthArg a => bool_decide (name a = x)
  | SynthIntConst _ | SynthBoolConst _ | SynthStrConst _ => false
  | SynthListLen i => reached x i e
  | SynthIntAdd l r | SynthStrAdd l r => reached x l e || reached x r e
  | SynthBoolAnd l r =>
      reached x l e
      || match evaluate l e with
         | Ok v => truthy v && reached x r e
         | Raise _ => false
         end
  end.

(** * Properties *)

(** ** The monad and [choice] *)

Lemma bind_Ok_inv {A B} (m : M A) (k : A -> M B) p b p' :
  bind m k p = (Ok b, p') →
  ∃ a p1, m p = (Ok a, p1) ∧ k a p1 = (Ok b, p').
Proof.
  unfold bind. destruct (m p) as [[a|e] p1]; intros H.
  - eauto.
  - discriminate.
Qed.

Lemma bind_Raise_inv {A B} (m : M A) (k : A -> M B) p e p' :
  bind m k p = (Raise e, p') →
  m p = (Raise e, p') ∨ ∃ a p1, m p = (Ok a, p1) ∧ k a p1 = (Raise e, p').
Proof.
  unfold bind. destruct (m p) as [[a|e'] p1]; intros H.
  - right. eauto.
  - left. congruence.
Qed.

(** Inversion of a successful [bind] in hypothesis [H]. *)
Ltac bind_inv H :=
  let c := fresh "c" in
  let p1 := fresh "p" in
  let Hc := fresh "Hc" in
  apply bind_Ok_inv in H as (c & p1 & Hc & H).

Lemma choice_nil oracle {A} p :
  choice oracle (@nil A) p = (Raise IndexError, p).
Proof. reflexivity. Qed.

Lemma choice_elem oracle {A} (seq : list A) p :
  seq ≠ [] → ∃ x, x ∈ seq ∧ choice oracle seq p = (Ok x, S p).
Proof.
  destruct seq as [|x0 seq']; [done|]. intros _.
  exists (nth (oracle p mod length (x0 :: seq'))%nat (x0 :: seq') x0).
  split; [|reflexivity].
  apply list_elem_of_In, nth_In, Nat.mod_upper_bound. simpl. lia.
Qed.

Lemma choice_Ok_inv oracle {A} (seq : list A) p x p' :
  choice oracle seq p = (Ok x, p') → x ∈ seq ∧ p' = S p.
Proof.
  intros H. destruct seq as [|x0 seq']; [discriminate|].
  destruct (choice_elem oracle (x0 :: seq') p) as (y & Hy & E); [done|].
  rewrite E in H. by simplify_eq.
Qed.

Lemma choice_Raise_inv oracle {A} (seq : list A) p e p' :
  choice oracle seq p = (Raise e, p') → seq = [] ∧ e = IndexError ∧ p' = p.
Proof.
  destruct seq; simpl; intros H; by simplify_eq.
Qed.

(** Every element of a sequence is drawn by some oracle: the model of
    [choice] leaves out no outcome. *)
Lemma choice_any {A} (seq : list A) x p :
  x ∈ seq → ∃ oracle, choice oracle seq p = (Ok x, S p).
Proof.
  intros Hx. apply list_elem_of_lookup in Hx as [i Hi].
  pose proof (lookup_lt_Some _ _ _ Hi) as Hlt.
  exists (fun _ => i). destruct seq as [|x0 seq']; [simpl in Hlt; lia|].
  unfold choice. rewrite Nat.mod_small by done.
  f_equal. f_equal. by apply nth_lookup_Some.
Qed.

(** ** Evaluation *)

(** The only exceptions evaluation raises: a TypeError of [+] or [len],
    or the KeyError of a referenced parameter that the environment
    lacks. *)
Lemma evaluate_Raise_inv t (e : gmap string value) err :
  evaluate t e = Raise err →
  err = TypeError
  ∨ ∃ y, has_param y t = true ∧ e !! y = None ∧ err = KeyError (key_error_msg y).
Proof.
  revert err. induction t as [a|c|l IHl r IHr|i IHi|c|l IHl r IHr|c|l IHl r IHr];
    intros err; simpl; try discriminate.
  - destruct (e !! name a) eqn:E; [discriminate|]. intros [= <-].
    right. exists (name a). by rewrite bool_decide_eq_true.
  - destruct (evaluate l e) as [x|e1]; simpl.
    + destruct (evaluate r e) as [y|e2]; simpl.
      * destruct x, y; simpl; intros [= <-]; by left.
      * intros [= <-]. destruct (IHr _ eq_refl) as [->|(y & Hy & ? & ->)]; [by left|].
        right. exists y. rewrite Hy, orb_true_r. done.
    + intros [= <-]. destruct (IHl _ eq_refl) as [->|(y & Hy & ? & ->)]; [by left|].
      right. exists y. rewrite Hy. done.
  - destruct (evaluate i e) as [x|e1]; simpl.
    + destruct x; simpl; intros [= <-]; by left.
    + intros [= <-]. by apply IHi.
  - destruct (evaluate l e) as [x|e1]; simpl.
    + destruct (truthy x); [|discriminate]. intros H.
      destruct (IHr _ H) as [->|(y & Hy & ? & ->)]; [by left|].
      right. exists y. rewrite Hy, orb_true_r. done.
    + intros [= <-]. destruct (IHl _ eq_refl) as [->|(y & Hy & ? & ->)]; [by left|].
      right. exists y. rewrite Hy. done.
  - destruct (evaluate l e) as [x|e1]; simpl.
    + destruct (evaluate r e) as [y|e2]; simpl.
      * destruct x, y; simpl; intros [= <-]; by left.
      * intros [= <-]. destruct (IHr _ eq_refl) as [->|(y & Hy & ? & ->)]; [by left|].
        right. exists y. rewrite Hy, orb_true_r. done.
    + intros [= <-]. destruct (IHl _ eq_refl) as [->|(y & Hy & ? & ->)]; [by left|].
      right. exists y. rewrite Hy. done.
Qed.

(** Without [and], every referenced parameter is looked up unless an
    exception is raised first: an unbound one leaves no value. *)
Lemma evaluate_unbound_no_value t x (e : gmap string value) :
  has_param x t = true → and_free t = true → e !! x = None →
  ∀ v, evaluate t e ≠ Ok v.
Proof.
  intros Hx Hf He.
  induction t as [a|c|l IHl r IHr|i IHi|c|l IHl r IHr|c|l IHl r IHr];
    simpl in *; try discriminate; intros v.
  - apply bool_decide_eq_true in Hx. rewrite Hx, He. discriminate.
  - apply andb_true_iff in Hf as [Hfl Hfr].
    destruct (evaluate l e) as [a|e1] eqn:El; simpl; [|discriminate].
    destruct (evaluate r e) as [b|e2] eqn:Er; simpl; [|discriminate].
    apply orb_true_iff in Hx as [Hx|Hx].
    + by destruct (IHl Hx Hfl a).
    + by destruct (IHr Hx Hfr b).
  - destruct (evaluate i e) as [a|e1] eqn:Ei; simpl; [|discriminate].
    by destruct (IHi Hx Hf a).
  - apply andb_true_iff in Hf as [Hfl Hfr].
    destruct (evaluate l e) as [a|e1] eqn:El; simpl; [|discriminate].
    destruct (evaluate r e) as [b|e2] eqn:Er; simpl; [|discriminate].
    apply orb_true_iff in Hx as [Hx|Hx].
    + by destruct (IHl Hx Hfl a).
    + by destruct (IHr Hx Hfr b).
Qed.

(** ** The environment built by the compiled function *)

Lemma foldl_store_other (l : list (arg * value)) (m : gmap string value) k :
  (∀ p, p ∈ l → name p.1 ≠ k) → foldl store m l !! k = m !! k.
Proof.
  revert m. induction l as [|p l IH]; intros m Hl; simpl; [done|].
  rewrite IH.
  - unfold store. apply lookup_insert_ne, Hl. by left.
  - intros q Hq. apply Hl. by right.
Qed.

Lemma foldl_store_lookup (l : list (arg * value)) (m : gmap string value) i a v :
  l !! i = Some (a, v) →
  (∀ j b w, (i < j)%nat → l !! j = Some (b, w) → name b ≠ name a) →
  foldl store m l !! name a = Some v.
Proof.
  revert m i. induction l as [|p l IH]; intros m i Hi Hlater; [done|].
  destruct i as [|i]; simpl in *.
  - simplify_eq. rewrite foldl_store_other.
    + unfold store. simpl. apply lookup_insert_eq.
    + intros [b w] Hq. apply list_elem_of_lookup in Hq as [j Hj].
      simpl. apply (Hlater (S j) b w); [lia|done].
  - apply (IH _ i); [done|]. intros j b w Hj Hb.
    apply (Hlater (S j) b w); [lia|done].
Qed.

Lemma make_env_lookup (params : list arg) (args : list value) i a v :
  params !! i = Some a → args !! i = Some v →
  (∀ j b, (i < j)%nat → params !! j = Some b → name b ≠ name a) →
  make_env params args !! name a = Some v.
Proof.
  intros Ha Hv Hlater. unfold make_env.
  apply (foldl_store_lookup _ _ i).
  - unfold zip. apply lookup_zip_with_Some. eauto.
  - intros j b w Hj Hb. unfold zip in Hb.
    apply lookup_zip_with_Some in Hb as (b' & w' & ? & Hb' & _). simplify_eq.
    by apply (Hlater j).
Qed.

(** ** Boolean synthesis *)

(** C1 (the code departs from the claim). [SynthBool.synthesize] builds
    [bool_args] and [valid_bool_ops] but then draws from
    [valid_int_ops + int_args], names that are bound nowhere: every call
    raises NameError before any candidate is drawn, also when the
    Boolean candidates are there, as in [bool_pools] at depth 2. *)
Theorem synth_bool_raises_name_error oracle fuel depth cx p :
  synthesize oracle (S fuel) (CClass Cls.SynthBool) depth cx p
    = (Raise (NameError "valid_int_ops"), p)
  ∧ valid_bool_ops 2 bool_pools = [Cls.SynthBoolConst; Cls.SynthBoolAnd]
  ∧ bool_args bool_pools = [mk_arg "b" Cls.SynthBool]
  ∧ synthesize oracle (S fuel) (CClass Cls.SynthBool) 2 bool_pools p
    = (Raise (NameError "valid_int_ops"), p).
Proof. repeat split; reflexivity. Qed.

(** The Boolean constant terminal wraps its draw in [SynthIntConst]. *)
Lemma synth_bool_const_node oracle fuel depth cx p :
  bool_literals cx ≠ [] →
  ∃ b, b ∈ bool_literals cx
    ∧ synthesize oracle (S fuel) (CClass Cls.SynthBoolConst) depth cx p
      = (Ok (SynthIntConst (LBool b)), S p).
Proof.
  intros Hne. destruct (choice_elem oracle _ p Hne) as (b & Hb & E).
  exists b. split; [done|]. simpl.
  destruct (bool_literals cx); [done|]. simpl. unfold bind. by rewrite E.
Qed.

(** C2 (the code departs from the claim). With [bool_literals = [True]]
    the Boolean constant terminal returns an Integer-constant node: its
    class is [SynthIntConst], its declared type [SynthInt], and it
    evaluates to the boolean [True]. *)
Theorem synth_bool_const_is_int_const oracle fuel depth p e :
  ∃ n, synthesize oracle (S fuel) (CClass Cls.SynthBoolConst) depth true_pools p
       = (Ok n, S p)
    ∧ n = SynthIntConst (LBool true)
    ∧ class_of n = Cls.SynthIntConst
    ∧ declared_type n = Cls.SynthInt
    ∧ evaluate n e = Ok (VBool true)
    ∧ type_of_value (VBool true) ≠ declared_type n.
Proof.
  exists (SynthIntConst (LBool true)).
  split; [|done].
  destruct (synth_bool_const_node oracle fuel depth true_pools p)
    as (b & Hb & E); [done|].
  apply list_elem_of_singleton in Hb as ->. exact E.
Qed.

(** ** Boolean AND *)

(** C10. [SynthBoolAnd.evaluate] is [left and right]: a falsy left value
    is the result whatever the right child is; otherwise the result is
    that of the right child; an exception of the left child is the
    result. [True and False] is [False]. *)
Theorem bool_and_short_circuit l r (e : gmap string value) :
  (∀ v, evaluate l e = Ok v → truthy v = false →
        ∀ r', evaluate (SynthBoolAnd l r') e = Ok v)
  ∧ (∀ v, evaluate l e = Ok v → truthy v = true →
          evaluate (SynthBoolAnd l r) e = evaluate r e)
  ∧ (∀ err, evaluate l e = Raise err →
            evaluate (SynthBoolAnd l r) e = Raise err)
  ∧ evaluate (SynthBoolAnd (SynthBoolConst (LBool true))
                           (SynthBoolConst (LBool false))) e
    = Ok (VBool false).
Proof.
  repeat split.
  - intros v Hl Hv r'. simpl. rewrite Hl. simpl. by rewrite Hv.
  - intros v Hl Hv. simpl. rewrite Hl. simpl. by rewrite Hv.
  - intros err Hl. simpl. by rewrite Hl.
Qed.

(** A falsy left operand hides an unbound parameter on the right; a
    truthy one hands the result over to the right operand. *)
Lemma bool_and_short_circuit_witness :
  evaluate (SynthBoolAnd (SynthBoolConst (LBool false))
                         (SynthArg (mk_arg "x" Cls.SynthBool))) ∅
    = Ok (VBool false)
  ∧ evaluate (SynthBoolAnd (SynthIntConst (LInt 3)) (SynthStrConst (LStr "s"))) ∅
    = Ok (VStr "s").
Proof.
  split.
  - apply (proj1 (bool_and_short_circuit
                    (SynthBoolConst (LBool false)) (SynthBoolConst (LBool false)) ∅)
                 (VBool false)); reflexivity.
  - apply (proj1 (proj2 (bool_and_short_circuit
                    (SynthIntConst (LInt 3)) (SynthStrConst (LStr "s")) ∅))
                 (VInt 3)); reflexivity.
Defined.

(** ** Rendering *)

(** C8 as the claim states it fails: the constant holding [True]
    renders with a capital T. *)
Lemma render_true_is_not_lowercase :
  render (SynthBoolConst (LBool true)) ≠ "true".
Proof. discriminate. Qed.

(** C8, amended. Rendering is a function of the tree alone; an integer
    constant renders as its decimal numeral, a string constant as its
    text between double quotes, and a boolean constant as Python prints
    it: [True] or [False]. *)
Theorem render_constants :
  (∀ t1 t2, t1 = t2 → render t1 = render t2)
  ∧ (∀ z, render (SynthIntConst (LInt z)) = str_int z)
  ∧ render (SynthIntConst (LInt 42)) = "42"
  ∧ render (SynthIntConst (LInt (-7))) = "-7"
  ∧ (∀ s, render (SynthStrConst (LStr s)) = dquote +:+ s +:+ dquote)
  ∧ render (SynthBoolConst (LBool true)) = "True"
  ∧ render (SynthBoolConst (LBool false)) = "False".
Proof. repeat split; by intros; subst. Qed.

Lemma render_constants_witness :
  render (SynthIntAdd (SynthIntConst (LInt 1)) (SynthIntConst (LInt 2)))
  = render (SynthIntAdd (SynthIntConst (LInt 1)) (SynthIntConst (LInt 2))).
Proof.
  apply (proj1 render_constants). reflexivity.
Defined.

(** ** Parameter references *)

(** C6 as the claim states it fails: [and] with a falsy left operand
    returns without evaluating a right operand that refers to ["x"]. *)
Lemma unbound_param_behind_and :
  has_param "x" (SynthBoolAnd (SynthBoolConst (LBool false))
                              (SynthArg (mk_arg "x" Cls.SynthBool))) = true
  ∧ (∅ : gmap string value) !! "x" = None
  ∧ evaluate (SynthBoolAnd (SynthBoolConst (LBool false))
                           (SynthArg (mk_arg "x" Cls.SynthBool))) ∅
    = Ok (VBool false)
  ∧ ∀ err, evaluate (SynthBoolAnd (SynthBoolConst (LBool false))
                                  (SynthArg (mk_arg "x" Cls.SynthBool))) ∅
           ≠ Raise err.
Proof. repeat split. discriminate. Qed.

(** An operator that fails on the left of the reference raises its
    TypeError before the name is looked up. *)
Example unbound_param_after_type_error :
  evaluate (SynthIntAdd (SynthListLen (SynthIntConst (LInt 1)))
                        (SynthArg (mk_arg "x" Cls.SynthInt))) ∅
  = Raise TypeError.
Proof. reflexivity. Qed.

(** Without [and] every reference is reached. *)
Lemma and_free_reached x t (e : gmap string value) :
  has_param x t = true → and_free t = true → reached x t e = true.
Proof.
  induction t as [a|c|l IHl r IHr|i IHi|c|l IHl r IHr|c|l IHl r IHr];
    simpl; intros Hx Hf; try done.
  - apply andb_true_iff in Hf as [Hfl Hfr].
    apply orb_true_iff in Hx as [Hx|Hx]; apply orb_true_iff; auto.
  - auto.
  - apply andb_true_iff in Hf as [Hfl Hfr].
    apply orb_true_iff in Hx as [Hx|Hx]; apply orb_true_iff; auto.
Qed.

(** Taking the binding of [x] away from an environment in which the
    tree has a value: the KeyError of [x] if [x] is reached, the same
    value if it is not. *)
Lemma evaluate_without x v (e : gmap string value) t :
  e !! x = None →
  ∀ w, evaluate t (<[x:=v]> e) = Ok w →
    evaluate t e
    = if reached x t e then Raise (KeyError (key_error_msg x)) else Ok w.
Proof.
  intros He.
  induction t as [a|c|l IHl r IHr|i IHi|c|l IHl r IHr|c|l IHl r IHr];
    intros w H; simpl in *; try done.
  - case_bool_decide as Hn.
    + by rewrite Hn, He.
    + rewrite lookup_insert_ne in H by done.
      by destruct (e !! name a).
  - destruct (evaluate l (<[x:=v]> e)) as [a|] eqn:El; [|done]. simpl in H.
    destruct (evaluate r (<[x:=v]> e)) as [b|] eqn:Er; [|done]. simpl in H.
    rewrite (IHl _ eq_refl), (IHr _ eq_refl).
    destruct (reached x l e); [done|]. simpl.
    destruct (reached x r e); done.
  - destruct (evaluate i (<[x:=v]> e)) as [a|] eqn:Ei; [|done]. simpl in H.
    rewrite (IHi _ eq_refl). destruct (reached x i e); done.
  - destruct (evaluate l (<[x:=v]> e)) as [a|] eqn:El; [|done]. simpl in H.
    rewrite (IHl _ eq_refl).
    destruct (reached x l e); [done|]. simpl.
    destruct (truthy a); simpl.
    + by apply IHr.
    + done.
  - destruct (evaluate l (<[x:=v]> e)) as [a|] eqn:El; [|done]. simpl in H.
    destruct (evaluate r (<[x:=v]> e)) as [b|] eqn:Er; [|done]. simpl in H.
    rewrite (IHl _ eq_refl), (IHr _ eq_refl).
    destruct (reached x l e); [done|]. simpl.
    destruct (reached x r e); done.
Qed.

(** C6, amended. A parameter reference raises the KeyError of its name
    when the name is not in the environment and returns the
    environment's value when it is. For a tree and an environment that
    lacks [x], in which the tree has a value once [x] is bound: the tree
    raises the KeyError of [x] when it refers to [x] and holds no
    [SynthBoolAnd]; with [SynthBoolAnd] it raises that KeyError exactly
    when evaluation reaches a reference to [x], and returns the
    unchanged value when [and] skips every such reference. Whatever else
    is wrong with the environment or the operands, a tree without
    [SynthBoolAnd] that refers to [x] returns no value: it raises the
    KeyError of a referenced name that is missing or the TypeError of an
    operator evaluated before. *)
Theorem unbound_param_raises x (e : gmap string value) :
  (∀ a, name a = x → e !! x = None →
        evaluate (SynthArg a) e = Raise (KeyError (key_error_msg x)))
  ∧ (∀ a v, name a = x → e !! x = Some v → evaluate (SynthArg a) e = Ok v)
  ∧ (∀ t v w, has_param x t = true → and_free t = true → e !! x = None →
          evaluate t (<[x:=v]> e) = Ok w →
          evaluate t e = Raise (KeyError (key_error_msg x)))
  ∧ (∀ t v w, e !! x = None → evaluate t (<[x:=v]> e) = Ok w →
          evaluate t e
          = if reached x t e then Raise (KeyError (key_error_msg x)) else Ok w)
  ∧ (∀ t, has_param x t = true → and_free t = true → e !! x = None →
          ∃ err, evaluate t e = Raise err
            ∧ (err = TypeError
               ∨ ∃ y, has_param y t = true ∧ e !! y = None
                      ∧ err = KeyError (key_error_msg y))).
Proof.
  split; [|split; [|split; [|split]]].
  - intros a <- He. simpl. by rewrite He.
  - intros a v <- He. simpl. by rewrite He.
  - intros t v w Hx Hf He H.
    rewrite (evaluate_without x v e t He w H).
    by rewrite (and_free_reached x t e Hx Hf).
  - intros t v w He H. by apply (evaluate_without x v).
  - intros t Hx Hf He. destruct (evaluate t e) as [v|err] eqn:E.
    + by destruct (evaluate_unbound_no_value t x e Hx Hf He v).
    + exists err. split; [done|]. by apply evaluate_Raise_inv.
Qed.

Lemma unbound_param_raises_witness :
  evaluate (SynthArg (mk_arg "x" Cls.SynthInt)) ∅
    = Raise (KeyError (key_error_msg "x"))
  ∧ evaluate (SynthArg (mk_arg "x" Cls.SynthInt)) {[ "x"%string := VInt 5 ]}
    = Ok (VInt 5)
  ∧ evaluate (SynthIntAdd (SynthIntConst (LInt 1))
                          (SynthArg (mk_arg "x" Cls.SynthInt))) ∅
    = Raise (KeyError (key_error_msg "x"))
  ∧ evaluate (SynthBoolAnd (SynthArg (mk_arg "x" Cls.SynthBool))
                           (SynthBoolConst (LBool true))) ∅
    = Raise (KeyError (key_error_msg "x"))
  ∧ evaluate (SynthBoolAnd (SynthBoolConst (LBool true))
                           (SynthArg (mk_arg "x" Cls.SynthBool))) ∅
    = Raise (KeyError (key_error_msg "x"))
  ∧ evaluate (SynthBoolAnd (SynthBoolConst (LBool false))
                           (SynthArg (mk_arg "x" Cls.SynthBool))) ∅
    = Ok (VBool false)
  ∧ ∃ err, evaluate (SynthIntAdd (SynthListLen (SynthIntConst (LInt 1)))
                                 (SynthArg (mk_arg "x" Cls.SynthInt))) ∅
           = Raise err.
Proof.
  split; [|split; [|split; [|split; [|split; [|split]]]]].
  - apply (proj1 (unbound_param_raises "x" ∅)); reflexivity.
  - apply (proj1 (proj2 (unbound_param_raises "x" {[ "x"%string := VInt 5 ]})));
      reflexivity.
  - apply (proj1 (proj2 (proj2 (unbound_param_raises "x" ∅)))
             (SynthIntAdd (SynthIntConst (LInt 1))
                          (SynthArg (mk_arg "x" Cls.SynthInt)))
             (VInt 2) (VInt 3)); reflexivity.
  - apply (proj1 (proj2 (proj2 (proj2 (unbound_param_raises "x" ∅))))
             (SynthBoolAnd (SynthArg (mk_arg "x" Cls.SynthBool))
                           (SynthBoolConst (LBool true)))
             (VBool true) (VBool true)); reflexivity.
  - apply (proj1 (proj2 (proj2 (proj2 (unbound_param_raises "x" ∅))))
             (SynthBoolAnd (SynthBoolConst (LBool true))
                           (SynthArg (mk_arg "x" Cls.SynthBool)))
             (VBool true) (VBool true)); reflexivity.
  - apply (proj1 (proj2 (proj2 (proj2 (unbound_param_raises "x" ∅))))
             (SynthBoolAnd (SynthBoolConst (LBool false))
                           (SynthArg (mk_arg "x" Cls.SynthBool)))
             (VBool true) (VBool false)); reflexivity.
  - destruct (proj2 (proj2 (proj2 (proj2 (unbound_param_raises "x" ∅))))
                (SynthIntAdd (SynthListLen (SynthIntConst (LInt 1)))
                             (SynthArg (mk_arg "x" Cls.SynthInt)))
                eq_refl eq_refl (lookup_empty _)) as (err & E & _).
    exists err. exact E.
Defined.

(** ** The compiled function *)

(** C7. The function returned by [make_func] raises ValueError when the
    number of arguments differs from the number of declared parameters;
    otherwise it evaluates the tree in the environment built from the
    parameters and arguments paired in order, where the i-th parameter's
    name is bound to the i-th argument unless a later parameter repeats
    the name. *)
Theorem inner_func_arity (params : list arg) (expr : node) (args : list value) :
  (length args ≠ length params →
     inner_func params expr args = Raise (ValueError msg_arity))
  ∧ (length args = length params →
     inner_func params expr args = evaluate expr (make_env params args)
     ∧ ∀ i a v, params !! i = Some a → args !! i = Some v →
         (∀ j b, (i < j)%nat → params !! j = Some b → name b ≠ name a) →
         make_env params args !! name a = Some v).
Proof.
  split.
  - intros Hne. unfold inner_func.
    destruct (Nat.eqb_spec (length params) (length args)); [congruence|done].
  - intros Heq. split.
    + unfold inner_func. rewrite Heq, Nat.eqb_refl. done.
    + intros i a v. apply make_env_lookup.
Qed.

Lemma inner_func_arity_witness :
  inner_func two_params sum_tree [VInt 1] = Raise (ValueError msg_arity)
  ∧ inner_func two_params sum_tree [VInt 1; VInt 2; VInt 3]
    = Raise (ValueError msg_arity)
  ∧ inner_func two_params sum_tree [VInt 1; VInt 2]
    = evaluate sum_tree (make_env two_params [VInt 1; VInt 2])
  ∧ make_env two_params [VInt 1; VInt 2] !! "y" = Some (VInt 2).
Proof.
  split; [|split; [|split]].
  - apply (proj1 (inner_func_arity two_params sum_tree [VInt 1])). simpl. lia.
  - apply (proj1 (inner_func_arity two_params sum_tree [VInt 1; VInt 2; VInt 3])).
    simpl. lia.
  - apply (proj2 (inner_func_arity two_params sum_tree [VInt 1; VInt 2])).
    reflexivity.
  - apply (proj2 (proj2 (inner_func_arity two_params sum_tree [VInt 1; VInt 2])
                    eq_refl)
             1%nat (mk_arg "y" Cls.SynthInt) (VInt 2)); [reflexivity|reflexivity|].
    intros [|[|j]] b Hj Hb; [lia|lia|discriminate].
Defined.

(** With two arguments the two parameters are bound and added. *)
Example inner_func_sum :
  inner_func two_params sum_tree [VInt 1; VInt 2] = Ok (VInt 3).
Proof. reflexivity. Qed.

(** With two parameters of the same name the later argument is the one
    the tree sees. *)
Example inner_func_repeated_name :
  inner_func [mk_arg "x" Cls.SynthInt; mk_arg "x" Cls.SynthInt]
             (SynthArg (mk_arg "x" Cls.SynthInt)) [VInt 1; VInt 2]
  = Ok (VInt 2).
Proof. reflexivity. Qed.

(** ** Exhausted candidates *)

(** The three type classes that build [class_choices] draw from it and
    hand the call over to the drawn candidate. *)
Lemma synthesize_type_class oracle fuel T depth cx l p :
  class_choices T depth cx = Some l →
  synthesize oracle (S fuel) (CClass T) depth cx p
  = bind (choice oracle l) (fun c => synthesize oracle fuel c depth cx) p.
Proof. destruct T; simpl; intros [= <-]; reflexivity. Qed.

(** C3. When the candidate list of a type is empty, [choice] raises
    IndexError and synthesis returns no node: so for Integer, String and
    List, whose [synthesize] builds the list. For Boolean no call
    returns a node. In particular Integer synthesis with no integer
    literal, [int_ops = [SynthIntConst]] and no Integer parameter fails
    at every depth. *)
Theorem empty_candidates_raise oracle fuel depth p :
  (∀ T cx, class_choices T depth cx = Some [] →
     synthesize oracle (S fuel) (CClass T) depth cx p = (Raise IndexError, p))
  ∧ (∀ cx n p',
     synthesize oracle (S fuel) (CClass Cls.SynthBool) depth cx p ≠ (Ok n, p'))
  ∧ (∀ cx, int_literals cx = [] → int_ops cx = [Cls.SynthIntConst] →
     int_args cx = [] →
     synthesize oracle (S fuel) (CClass Cls.SynthInt) depth cx p
     = (Raise IndexError, p)).
Proof.
  split; [|split].
  - intros T cx H. by rewrite (synthesize_type_class _ _ _ _ _ _ _ H).
  - intros cx n p'. discriminate.
  - intros cx Hlit Hops Hargs.
    rewrite (synthesize_type_class _ _ _ _ _ [] _); [done|].
    simpl. unfold valid_int_ops. rewrite Hargs, Hops, Hlit. reflexivity.
Qed.

Lemma empty_candidates_raise_witness :
  synthesize (fun k => k) 11 (CClass Cls.SynthInt) 5 exhausted_pools 0%nat
  = (Raise IndexError, 0%nat)
  ∧ synthesize (fun k => k) 11 (CClass Cls.SynthList) 5
      {| input_args := []; output_type := Cls.SynthList;
         int_literals := []; int_ops := []; bool_literals := []; bool_ops := [];
         str_literals := []; str_ops := [] |} 0%nat
    = (Raise IndexError, 0%nat).
Proof.
  split.
  - apply (proj2 (proj2 (empty_candidates_raise (fun k => k) 10 5 0%nat)));
      reflexivity.
  - apply (proj1 (empty_candidates_raise (fun k => k) 10 5 0%nat)). reflexivity.
Defined.

(** ** Depth bound *)

Lemma inj_ret {A} (a b : A) p p' : ret a p = (Ok b, p') → a = b ∧ p = p'.
Proof. unfold ret. intros H. by simplify_eq. Qed.

(** Whatever the target class and the pools, an operator is only built
    above depth 1 and from children synthesized one level lower. *)
Lemma synthesize_nt_depth oracle cx fuel :
  ∀ target depth p t p',
    synthesize oracle fuel target depth cx p = (Ok t, p') →
    Z.of_nat (nt_depth t) ≤ Z.max 0 (depth - 1).
Proof.
  induction fuel as [|fuel IH]; intros target depth p t p' H; [discriminate|].
  destruct target as [c|a].
  - destruct c; simpl in H; try discriminate.
    + (* SynthInt *) bind_inv H. by apply IH in H.
    + (* SynthIntConst *)
      destruct (nonempty (int_literals cx)); simpl in H; [|discriminate].
      bind_inv H. apply inj_ret in H as [<- _]. simpl. lia.
    + (* SynthIntAdd *)
      destruct (Z.leb_spec depth 1); [discriminate|].
      bind_inv H. bind_inv H. apply inj_ret in H as [<- _].
      apply IH in Hc, Hc0. simpl. lia.
    + (* SynthListLen *)
      destruct (Z.leb_spec depth 1); [discriminate|].
      bind_inv H. apply inj_ret in H as [<- _].
      apply IH in Hc. simpl. lia.
    + (* SynthBoolConst *)
      destruct (nonempty (bool_literals cx)); simpl in H; [|discriminate].
      bind_inv H. apply inj_ret in H as [<- _]. simpl. lia.
    + (* SynthBoolAnd *)
      destruct (Z.leb_spec depth 1); [discriminate|].
      bind_inv H. bind_inv H. apply inj_ret in H as [<- _].
      apply IH in Hc, Hc0. simpl. lia.
    + (* SynthStr *) bind_inv H. by apply IH in H.
    + (* SynthStrConst *)
      destruct (nonempty (str_literals cx)); simpl in H; [|discriminate].
      bind_inv H. apply inj_ret in H as [<- _]. simpl. lia.
    + (* SynthStrAdd *)
      destruct (Z.leb_spec depth 1); [discriminate|].
      bind_inv H. bind_inv H. apply inj_ret in H as [<- _].
      apply IH in Hc, Hc0. simpl. lia.
    + (* SynthList *) bind_inv H. by apply IH in H.
  - simpl in H. apply inj_ret in H as [<- _]. simpl. lia.
Qed.

(** At depth 1 or below the filter of a type class keeps no operator
    other than the constant production. *)
Lemma valid_ops_shallow depth cx :
  depth ≤ 1 →
  (∀ op, op ∈ valid_int_ops depth cx → op = Cls.SynthIntConst)
  ∧ (∀ op, op ∈ valid_str_ops depth cx → op = Cls.SynthStrConst).
Proof.
  intros Hd. split; intros op Hop; apply list_elem_of_In, filter_In in Hop as [_ Hop];
    apply orb_true_iff in Hop as [Hop|Hop]; apply andb_true_iff in Hop as [H1 H2].
  - by apply bool_decide_eq_true in H1.
  - apply Z.ltb_lt in H2. lia.
  - by apply bool_decide_eq_true in H1.
  - apply Z.ltb_lt in H2. lia.
Qed.

(** C4. A tree synthesized with depth budget [depth] nests at most
    [depth - 1] operators (none when [depth <= 1]), hence at most
    [depth] for a budget that is not negative; at depth 1 or below the
    type classes keep only their constant production among the
    operators, and the tree is a leaf. *)
Theorem depth_bound oracle cx fuel target depth p t p' :
  synthesize oracle fuel target depth cx p = (Ok t, p') →
  Z.of_nat (nt_depth t) ≤ Z.max 0 (depth - 1)
  ∧ (0 ≤ depth → Z.of_nat (nt_depth t) ≤ depth)
  ∧ (depth ≤ 1 →
       nt_depth t = 0%nat
       ∧ (∀ op, op ∈ valid_int_ops depth cx → op = Cls.SynthIntConst)
       ∧ (∀ op, op ∈ valid_str_ops depth cx → op = Cls.SynthStrConst)).
Proof.
  intros H. apply synthesize_nt_depth in H.
  split; [done|]. split; [lia|]. intros Hd. split; [lia|].
  by apply valid_ops_shallow.
Qed.

(** ** Constants come from the pools *)

Lemma synth_int_const_node oracle fuel depth cx p :
  int_literals cx ≠ [] →
  ∃ z, z ∈ int_literals cx
    ∧ synthesize oracle (S fuel) (CClass Cls.SynthIntConst) depth cx p
      = (Ok (SynthIntConst (LInt z)), S p).
Proof.
  intros Hne. destruct (choice_elem oracle _ p Hne) as (z & Hz & E).
  exists z. split; [done|]. simpl.
  destruct (int_literals cx); [done|]. simpl. unfold bind. by rewrite E.
Qed.

Lemma synth_str_const_node oracle fuel depth cx p :
  str_literals cx ≠ [] →
  ∃ s, s ∈ str_literals cx
    ∧ synthesize oracle (S fuel) (CClass Cls.SynthStrConst) depth cx p
      = (Ok (SynthStrConst (LStr s)), S p).
Proof.
  intros Hne. destruct (choice_elem oracle _ p Hne) as (s & Hs & E).
  exists s. split; [done|]. simpl.
  destruct (str_literals cx); [done|]. simpl. unfold bind. by rewrite E.
Qed.

(** What the candidate lists of the type classes hold. *)
Lemma int_choices_inv depth cx c :
  c ∈ map CClass (valid_int_ops depth cx) ++ map CArg (int_args cx) →
  (∃ a, c = CArg a)
  ∨ (∃ op, c = CClass op ∧ op ∈ int_ops cx
       ∧ (op = Cls.SynthIntConst ∨ 1 < depth)).
Proof.
  intros Hc. apply elem_of_app in Hc as [Hc|Hc];
    apply list_elem_of_fmap in Hc as (x & -> & Hx); [right|left; eauto].
  exists x. split; [done|].
  apply list_elem_of_In, filter_In in Hx as [Hin Hf].
  split; [by apply list_elem_of_In|].
  apply orb_true_iff in Hf as [Hf|Hf]; apply andb_true_iff in Hf as [H1 H2].
  - left. by apply bool_decide_eq_true in H1.
  - right. by apply Z.ltb_lt.
Qed.

Lemma str_choices_inv depth cx c :
  c ∈ map CClass (valid_str_ops depth cx) ++ map CArg (str_args cx) →
  (∃ a, c = CArg a)
  ∨ (∃ op, c = CClass op ∧ op ∈ str_ops cx
       ∧ (op = Cls.SynthStrConst ∨ 1 < depth)).
Proof.
  intros Hc. apply elem_of_app in Hc as [Hc|Hc];
    apply list_elem_of_fmap in Hc as (x & -> & Hx); [right|left; eauto].
  exists x. split; [done|].
  apply list_elem_of_In, filter_In in Hx as [Hin Hf].
  split; [by apply list_elem_of_In|].
  apply orb_true_iff in Hf as [Hf|Hf]; apply andb_true_iff in Hf as [H1 H2].
  - left. by apply bool_decide_eq_true in H1.
  - right. by apply Z.ltb_lt.
Qed.

Lemma list_choices_inv cx c :
  c ∈ map CArg (list_args cx) → ∃ a, c = CArg a.
Proof. intros Hc. apply list_elem_of_fmap in Hc as (x & -> & _). eauto. Qed.

Lemma registered_int_op cx op :
  registered cx → op ∈ int_ops cx → Cls.base op = Some Cls.SynthInt.
Proof. intros (H & _ & _) Hop. by apply (proj1 (Forall_forall _ _) H). Qed.

Lemma registered_str_op cx op :
  registered cx → op ∈ str_ops cx → Cls.base op = Some Cls.SynthStr.
Proof. intros (_ & _ & H) Hop. by apply (proj1 (Forall_forall _ _) H). Qed.

(** With registered pools the Boolean constant production is out of
    reach of the type classes, and every constant of the tree is a
    literal of the pool of its class. *)
Lemma synthesize_consts oracle cx fuel :
  registered cx →
  ∀ target depth p t p',
    target ≠ CClass Cls.SynthBoolConst →
    synthesize oracle fuel target depth cx p = (Ok t, p') →
    consts_in_pools cx t.
Proof.
  intros Hreg.
  induction fuel as [|fuel IH]; intros target depth p t p' Ht H; [discriminate|].
  destruct target as [c|a].
  - destruct c; simpl in H; try discriminate; try done.
    + (* SynthInt *)
      bind_inv H. apply choice_Ok_inv in Hc as [Hc _].
      apply IH in H; [done|].
      apply int_choices_inv in Hc as [[a ->]|(op & -> & Hop & _)]; [done|].
      apply (registered_int_op _ _ Hreg) in Hop. by intros [= ->].
    + (* SynthIntConst *)
      destruct (nonempty (int_literals cx)); simpl in H; [|discriminate].
      bind_inv H. apply inj_ret in H as [<- _].
      apply choice_Ok_inv in Hc as [Hc _]. simpl. eauto.
    + (* SynthIntAdd *)
      destruct (Z.leb_spec depth 1); [discriminate|].
      bind_inv H. bind_inv H. apply inj_ret in H as [<- _].
      apply IH in Hc, Hc0; done.
    + (* SynthListLen *)
      destruct (Z.leb_spec depth 1); [discriminate|].
      bind_inv H. apply inj_ret in H as [<- _].
      apply IH in Hc; done.
    + (* SynthBoolAnd *)
      destruct (Z.leb_spec depth 1); [discriminate|].
      bind_inv H. bind_inv H. apply inj_ret in H as [<- _].
      apply IH in Hc, Hc0; done.
    + (* SynthStr *)
      bind_inv H. apply choice_Ok_inv in Hc as [Hc _].
      apply IH in H; [done|].
      apply str_choices_inv in Hc as [[a ->]|(op & -> & Hop & _)]; [done|].
      apply (registered_str_op _ _ Hreg) in Hop. by intros [= ->].
    + (* SynthStrConst *)
      destruct (nonempty (str_literals cx)); simpl in H; [|discriminate].
      bind_inv H. apply inj_ret in H as [<- _].
      apply choice_Ok_inv in Hc as [Hc _]. simpl. eauto.
    + (* SynthStrAdd *)
      destruct (Z.leb_spec depth 1); [discriminate|].
      bind_inv H. bind_inv H. apply inj_ret in H as [<- _].
      apply IH in Hc, Hc0; done.
    + (* SynthList *)
      bind_inv H. apply choice_Ok_inv in Hc as [Hc _].
      apply IH in H; [done|].
      by apply list_choices_inv in Hc as [a ->].
  - simpl in H. apply inj_ret in H as [<- _]. done.
Qed.

(** C9. With a non-empty literal pool each constant production returns
    a constant node that stores a literal of that pool, and the node
    evaluates to the stored value in every environment. With registered
    operator pools, every constant of a tree synthesized for a type is a
    literal of the pool of its class: an Integer constant holds a member
    of [int_literals]. *)
Theorem const_from_pool oracle fuel depth cx p :
  (∀ K, literal_pool K cx ≠ [] →
     ∃ n v, synthesize oracle (S fuel) (CClass K) depth cx p = (Ok n, S p)
       ∧ is_const n = true ∧ val_of n = Some v
       ∧ v ∈ literal_pool K cx
       ∧ ∀ e, evaluate n e = Ok (value_of_literal v))
  ∧ (registered cx → ∀ T t p', T ∈ type_classes →
       synthesize oracle fuel (CClass T) depth cx p = (Ok t, p') →
       consts_in_pools cx t).
Proof.
  split.
  - intros K HK. destruct K; simpl in HK; try done.
    + destruct (synth_int_const_node oracle fuel depth cx p) as (z & Hz & E).
      { intros Hnil. by rewrite Hnil in HK. }
      exists (SynthIntConst (LInt z)), (LInt z). rewrite E.
      repeat split. by apply list_elem_of_fmap_2.
    + destruct (synth_bool_const_node oracle fuel depth cx p) as (b & Hb & E).
      { intros Hnil. by rewrite Hnil in HK. }
      exists (SynthIntConst (LBool b)), (LBool b). rewrite E.
      repeat split. by apply list_elem_of_fmap_2.
    + destruct (synth_str_const_node oracle fuel depth cx p) as (s & Hs & E).
      { intros Hnil. by rewrite Hnil in HK. }
      exists (SynthStrConst (LStr s)), (LStr s). rewrite E.
      repeat split. by apply list_elem_of_fmap_2.
  - intros Hreg T t p' HT H. apply (synthesize_consts _ _ _ Hreg) in H; [done|].
    intros [= ->]. unfold type_classes in HT.
    rewrite !elem_of_cons, elem_of_nil in HT.
    destruct HT as [?|[?|[?|[?|[]]]]]; discriminate.
Qed.

Lemma const_from_pool_witness :
  (∃ n v, synthesize (fun k => k * 7 + 1)%nat 1 (CClass Cls.SynthIntConst) 4
            main_pools 0%nat = (Ok n, 1%nat)
     ∧ is_const n = true ∧ val_of n = Some v
     ∧ v ∈ literal_pool Cls.SynthIntConst main_pools
     ∧ ∀ e, evaluate n e = Ok (value_of_literal v))
  ∧ consts_in_pools main_pools
      (SynthIntAdd
         (SynthListLen (SynthArg (mk_arg "l" Cls.SynthList)))
         (SynthIntAdd
            (SynthListLen (SynthArg (mk_arg "l" Cls.SynthList)))
            (SynthIntAdd (SynthIntConst (LInt 7)) (SynthIntConst (LInt 1))))).
Proof.
  split.
  - apply (proj1 (const_from_pool (fun k => k * 7 + 1)%nat 0 4 main_pools 0%nat)
             Cls.SynthIntConst).
    discriminate.
  - apply (proj2 (const_from_pool (fun k => k * 7 + 1)%nat 20 4 main_pools 0%nat))
      with (T := Cls.SynthInt) (p' := 11%nat).
    + unfold registered, main_pools. simpl.
      repeat split; repeat constructor.
    + unfold type_classes. apply elem_of_cons. by left.
    + reflexivity.
Defined.

(** ** Termination *)

Lemma choice_no_overflow oracle {A} (seq : list A) p :
  ¬ overflows (choice oracle seq p).
Proof. destruct seq; discriminate. Qed.

Lemma bind_no_overflow {A B} (m : M A) (k : A -> M B) p :
  ¬ overflows (m p) →
  (∀ a p1, m p = (Ok a, p1) → ¬ overflows (k a p1)) →
  ¬ overflows (bind m k p).
Proof.
  unfold bind. destruct (m p) as [[a|e] p1]; intros Hm Hk.
  - by apply Hk.
  - unfold overflows in *. simpl in *. congruence.
Qed.

Lemma bind_congr {A B} (m m' : M A) (k k' : A -> M B) p :
  ¬ overflows (bind m k p) →
  (¬ overflows (m p) → m' p = m p) →
  (∀ a p1, m p = (Ok a, p1) → ¬ overflows (k a p1) → k' a p1 = k a p1) →
  bind m' k' p = bind m k p.
Proof.
  unfold bind. destruct (m p) as [[a|e] p1] eqn:E; intros Hno Hm Hk.
  - rewrite Hm by discriminate. by apply Hk.
  - rewrite Hm; [done|]. unfold overflows in *. simpl in *. congruence.
Qed.

(** One more frame changes nothing for a run that did not overflow. *)
Lemma synthesize_fuel_step oracle cx f g :
  (∀ target depth p,
     ¬ overflows (synthesize oracle f target depth cx p) →
     synthesize oracle g target depth cx p = synthesize oracle f target depth cx p) →
  ∀ target depth p,
    ¬ overflows (synthesize oracle (S f) target depth cx p) →
    synthesize oracle (S g) target depth cx p
    = synthesize oracle (S f) target depth cx p.
Proof.
  intros Hrec target depth p Hno.
  destruct target as [c|a]; [|reflexivity].
  destruct c; simpl in *; try reflexivity;
    repeat match goal with
           | |- context [if ?b then _ else _] => destruct b; simpl in *
           end;
    try reflexivity;
    repeat (apply bind_congr; [assumption| |]; intros; try reflexivity;
            try (by apply Hrec)).
Qed.

Lemma synthesize_fuel_S oracle cx fuel :
  ∀ target depth p,
    ¬ overflows (synthesize oracle fuel target depth cx p) →
    synthesize oracle (S fuel) target depth cx p
    = synthesize oracle fuel target depth cx p.
Proof.
  induction fuel as [|fuel IH].
  - intros target depth p Hno. by destruct Hno.
  - by apply synthesize_fuel_step.
Qed.

Lemma synthesize_fuel_mono oracle cx fuel fuel' target depth p :
  (fuel ≤ fuel')%nat →
  ¬ overflows (synthesize oracle fuel target depth cx p) →
  synthesize oracle fuel' target depth cx p
  = synthesize oracle fuel target depth cx p.
Proof.
  intros Hle Hno. induction Hle as [|fuel' Hle IH]; [done|].
  rewrite synthesize_fuel_S; [done|]. by rewrite IH.
Qed.

(** With registered pools every path from a target runs out of depth
    before it runs out of [frames]. *)
Lemma synthesize_enough oracle cx :
  registered cx →
  ∀ fuel target depth p,
    (frames target depth ≤ fuel)%nat →
    ¬ overflows (synthesize oracle fuel target depth cx p).
Proof.
  intros Hreg. induction fuel as [|fuel IH]; intros target depth p Hfr.
  { destruct target as [[]|]; simpl in Hfr; lia. }
  destruct target as [c|a]; [|discriminate].
  destruct c; simpl in *; try discriminate.
  - (* SynthInt *)
    apply bind_no_overflow; [apply choice_no_overflow|].
    intros c p1 Hc. apply choice_Ok_inv in Hc as [Hc _]. apply IH.
    apply int_choices_inv in Hc as [[a ->]|(op & -> & Hop & Hd)]; simpl; [lia|].
    apply (registered_int_op _ _ Hreg) in Hop.
    destruct op; try discriminate; destruct Hd as [|]; try discriminate; lia.
  - (* SynthIntConst *)
    destruct (nonempty (int_literals cx)); simpl; [|discriminate].
    apply bind_no_overflow; [apply choice_no_overflow|]. discriminate.
  - (* SynthIntAdd *)
    destruct (Z.leb_spec depth 1); [discriminate|].
    assert (Hf : (frames (CClass Cls.SynthInt) (depth - 1) ≤ fuel)%nat)
      by (simpl; lia).
    apply bind_no_overflow; [by apply IH|]. intros l p1 _.
    apply bind_no_overflow; [by apply IH|]. discriminate.
  - (* SynthListLen *)
    destruct (Z.leb_spec depth 1); [discriminate|].
    apply bind_no_overflow; [apply IH; simpl; lia|]. discriminate.
  - (* SynthBoolConst *)
    destruct (nonempty (bool_literals cx)); simpl; [|discriminate].
    apply bind_no_overflow; [apply choice_no_overflow|]. discriminate.
  - (* SynthBoolAnd *)
    destruct (Z.leb_spec depth 1); [discriminate|].
    apply bind_no_overflow; [apply IH; simpl; lia|]. intros l p1 _.
    apply bind_no_overflow; [apply IH; simpl; lia|]. discriminate.
  - (* SynthStr *)
    apply bind_no_overflow; [apply choice_no_overflow|].
    intros c p1 Hc. apply choice_Ok_inv in Hc as [Hc _]. apply IH.
    apply str_choices_inv in Hc as [[a ->]|(op & -> & Hop & Hd)]; simpl; [lia|].
    apply (registered_str_op _ _ Hreg) in Hop.
    destruct op; try discriminate; destruct Hd as [|]; try discriminate; lia.
  - (* SynthStrConst *)
    destruct (nonempty (str_literals cx)); simpl; [|discriminate].
    apply bind_no_overflow; [apply choice_no_overflow|]. discriminate.
  - (* SynthStrAdd *)
    destruct (Z.leb_spec depth 1); [discriminate|].
    assert (Hf : (frames (CClass Cls.SynthStr) (depth - 1) ≤ fuel)%nat)
      by (simpl; lia).
    apply bind_no_overflow; [by apply IH|]. intros l p1 _.
    apply bind_no_overflow; [by apply IH|]. discriminate.
  - (* SynthList *)
    apply bind_no_overflow; [apply choice_no_overflow|].
    intros c p1 Hc. apply choice_Ok_inv in Hc as [Hc _]. apply IH.
    apply list_choices_inv in Hc as [a ->]. simpl. lia.
Qed.

Lemma frames_type_class T depth :
  T ∈ type_classes → (frames (CClass T) depth ≤ enough_fuel depth)%nat.
Proof.
  unfold type_classes, enough_fuel. rewrite !elem_of_cons, elem_of_nil.
  intros [->|[->|[->|[->|[]]]]]; simpl; lia.
Qed.

(** C5. With registered operator pools, synthesis for a type ends at
    every depth and for every literal pools, so in particular for
    [depth >= 1] and non-empty pools: [enough_fuel depth] frames are
    never used up, and the result is the same with any larger number of
    frames, because an operator synthesizes its children at [depth - 1]
    and is no candidate at [depth <= 1]. Evaluation is defined by
    recursion on the tree and ends with a value, a KeyError or a
    TypeError. *)
Theorem synthesis_terminates oracle cx T depth p :
  registered cx → T ∈ type_classes →
  (∀ fuel, (enough_fuel depth ≤ fuel)%nat →
     ¬ overflows (synthesize oracle fuel (CClass T) depth cx p)
     ∧ synthesize oracle fuel (CClass T) depth cx p
       = synthesize oracle (enough_fuel depth) (CClass T) depth cx p)
  ∧ (∀ t (e : gmap string value),
       (∃ v, evaluate t e = Ok v)
       ∨ evaluate t e = Raise TypeError
       ∨ ∃ y, evaluate t e = Raise (KeyError (key_error_msg y))).
Proof.
  intros Hreg HT. split.
  - intros fuel Hfuel.
    assert (Hno : ¬ overflows
              (synthesize oracle (enough_fuel depth) (CClass T) depth cx p)).
    { apply synthesize_enough; [done|]. by apply frames_type_class. }
    rewrite (synthesize_fuel_mono _ _ _ _ _ _ _ Hfuel Hno). done.
  - intros t e. destruct (evaluate t e) as [v|err] eqn:E; [eauto|].
    right. apply evaluate_Raise_inv in E as [->|(y & _ & _ & ->)]; eauto.
Qed.

Lemma main_pools_registered : registered main_pools.
Proof. unfold registered, main_pools. simpl. repeat split; repeat constructor. Defined.

Lemma synthesis_terminates_witness :
  ¬ overflows (synthesize (fun k => 1%nat) 20 (CClass Cls.SynthInt) 4 main_pools 0%nat)
  ∧ synthesize (fun k => 1%nat) 20 (CClass Cls.SynthInt) 4 main_pools 0%nat
    = synthesize (fun k => 1%nat) (enough_fuel 4) (CClass Cls.SynthInt) 4 main_pools 0%nat.
Proof.
  apply (proj1 (synthesis_terminates (fun k => 1%nat) main_pools Cls.SynthInt 4 0%nat
                  main_pools_registered
                  ltac:(unfold type_classes; apply elem_of_cons; by left))).
  unfold enough_fuel. simpl. lia.
Defined.

(** A pool that holds the type class itself is not registered, and the
    recursion it allows does not descend: Integer synthesis with
    [int_ops = [SynthInt]] at depth 2 calls itself at depth 2 until the
    frames run out, however many there are. *)
Lemma type_class_in_pool_overflows oracle fuel p :
  overflows
    (synthesize oracle fuel (CClass Cls.SynthInt) 2
       {| input_args := []; output_type := Cls.SynthInt;
          int_literals := [1]; int_ops := [Cls.SynthInt];
          bool_literals := []; bool_ops := [];
          str_literals := []; str_ops := [] |} p).
Proof.
  revert p. induction fuel as [|fuel IH]; intros p; [reflexivity|].
  simpl. unfold bind, choice, valid_int_ops, int_args. simpl.
  apply IH.
Qed.

Lemma depth_bound_witness :
  Z.of_nat (nt_depth main_tree) ≤ Z.max 0 (4 - 1)
  ∧ Z.of_nat (nt_depth main_tree) ≤ 4
  ∧ nt_depth (SynthIntConst (LInt 8)) = 0%nat.
Proof.
  split; [|split].
  - apply (proj1 (depth_bound (fun k => k * 7 + 1)%nat main_pools 20
                    (CClass Cls.SynthInt) 4 0%nat main_tree 11%nat eq_refl)).
  - apply (proj1 (proj2 (depth_bound (fun k => k * 7 + 1)%nat main_pools 20
                    (CClass Cls.SynthInt) 4 0%nat main_tree 11%nat eq_refl))).
    lia.
  - apply (proj2 (proj2 (depth_bound (fun k => k * 7 + 1)%nat main_pools 20
                    (CClass Cls.SynthInt) 1 0%nat (SynthIntConst (LInt 8)) 2%nat
                    eq_refl))).
    lia.
Defined.

(** The entry point: the printed line and the function applied to lists
    of three and of five elements. *)
Example make_func_main :
  ∃ f, make_func (fun k => k * 7 + 1)%nat 20 4 main_pools 0%nat
       = (Ok ("lambda l: (len(l) + (len(l) + (7 + 1)))"%string, f), 11%nat)
    ∧ f [VList [VInt 0; VInt 1; VInt 2]] = Ok (VInt 14)
    ∧ f [VList [VInt 0; VInt 1; VInt 2; VInt 3; VInt 4]] = Ok (VInt 18)
    ∧ f [] = Raise (ValueError msg_arity).
Proof. eexists. split; [reflexivity|]. repeat split. Qed.

(** * Further properties of the synthesizer *)

(** ** Candidate lists *)

Lemma args_of_type_elem (T : Cls.t) (params : list arg) a :
  a ∈ List.filter (fun a => Cls.eqb (argtype a) T) params
  ↔ a ∈ params ∧ argtype a = T.
Proof.
  rewrite !list_elem_of_In, filter_In. unfold Cls.eqb.
  by rewrite bool_decide_eq_true.
Qed.

Lemma valid_int_ops_elem depth cx op :
  op ∈ valid_int_ops depth cx
  ↔ op ∈ int_ops cx
    ∧ (op = Cls.SynthIntConst ∧ int_literals cx ≠ []
       ∨ op ≠ Cls.SynthIntConst ∧ 1 < depth).
Proof.
  unfold valid_int_ops. rewrite !list_elem_of_In, filter_In.
  rewrite orb_true_iff, !andb_true_iff. unfold Cls.neqb, Cls.eqb.
  rewrite negb_true_iff, bool_decide_eq_true, bool_decide_eq_false, Z.ltb_lt.
  destruct (int_literals cx); simpl; intuition congruence.
Qed.

Lemma valid_str_ops_elem depth cx op :
  op ∈ valid_str_ops depth cx
  ↔ op ∈ str_ops cx
    ∧ (op = Cls.SynthStrConst ∧ str_literals cx ≠ []
       ∨ op ≠ Cls.SynthStrConst ∧ 1 < depth).
Proof.
  unfold valid_str_ops. rewrite !list_elem_of_In, filter_In.
  rewrite orb_true_iff, !andb_true_iff. unfold Cls.neqb, Cls.eqb.
  rewrite negb_true_iff, bool_decide_eq_true, bool_decide_eq_false, Z.ltb_lt.
  destruct (str_literals cx); simpl; intuition congruence.
Qed.

Lemma choices_elem (ops : list Cls.t) (args : list arg) c :
  c ∈ map CClass ops ++ map CArg args
  ↔ (∃ op, c = CClass op ∧ op ∈ ops) ∨ (∃ a, c = CArg a ∧ a ∈ args).
Proof.
  rewrite elem_of_app. change (map CClass ops) with (CClass <$> ops).
  change (map CArg args) with (CArg <$> args).
  rewrite !list_elem_of_fmap. done.
Qed.

Lemma nonempty_true {A} (l : list A) : nonempty l = true ↔ l ≠ [].
Proof. destruct l; simpl; split; congruence. Qed.

(** ** Draws *)

Section Locality.
Variables o1 o2 : nat -> nat.

Lemma local_ret {A} (a : A) : local o1 o2 (ret a) (ret a).
Proof. intros p r p' [= <- <-]. split; [lia|done]. Qed.

Lemma local_raise {A} e : local o1 o2 (@raise A e) (raise e).
Proof. intros p r p' [= <- <-]. split; [lia|done]. Qed.

Lemma local_choice {A} (seq : list A) : local o1 o2 (choice o1 seq) (choice o2 seq).
Proof.
  intros p r p'. unfold choice. destruct seq as [|x seq].
  - intros [= <- <-]. split; [lia|done].
  - intros [= <- <-]. split; [lia|]. intros Hag.
    rewrite <- (Hag p); [done|lia].
Qed.

Lemma local_bind {A B} (m1 m2 : M A) (k1 k2 : A -> M B) :
  local o1 o2 m1 m2 → (∀ a, local o1 o2 (k1 a) (k2 a)) → local o1 o2 (bind m1 k1) (bind m2 k2).
Proof.
  intros Hm Hk p r p'. unfold bind.
  destruct (m1 p) as [[a|e] p1] eqn:E1; destruct (Hm _ _ _ E1) as [Hle Hm2].
  - intros E2. destruct (Hk a _ _ _ E2) as [Hle2 Hk2]. split; [lia|].
    intros Hag. rewrite Hm2.
    + apply Hk2. intros k Hk'. apply Hag. lia.
    + intros k Hk'. apply Hag. lia.
  - intros [= <- <-]. split; [done|]. intros Hag. by rewrite Hm2.
Qed.

Lemma synthesize_local cx fuel :
  ∀ target depth,
    local o1 o2 (synthesize o1 fuel target depth cx) (synthesize o2 fuel target depth cx).
Proof.
  induction fuel as [|fuel IH]; intros target depth; [apply local_raise|].
  destruct target as [c|a]; [|apply local_ret].
  destruct c; simpl;
    repeat match goal with
           | |- context [if ?b then _ else _] => destruct b; simpl
           end;
    repeat first [ apply local_raise | apply local_ret | apply local_choice
                 | apply IH | apply local_bind | intros ? ].
Qed.
End Locality.

(** ** Synthesized trees follow the grammar *)

Lemma synthesize_target_tree oracle cx fuel :
  registered cx →
  ∀ target depth p t p',
    synthesize oracle fuel target depth cx p = (Ok t, p') →
    target_tree cx target depth t.
Proof.
  intros Hreg.
  induction fuel as [|fuel IH]; intros target depth p t p' H; [discriminate|].
  destruct target as [c|a].
  - destruct c; simpl in H; try discriminate.
    + (* SynthInt *)
      bind_inv H. apply choice_Ok_inv in Hc as [Hc _]. apply IH in H.
      apply choices_elem in Hc as [(op & -> & Hop)|(a & -> & Ha)].
      * apply valid_int_ops_elem in Hop as [Hop _].
        pose proof (registered_int_op _ _ Hreg Hop) as Hb.
        destruct op; try discriminate; simpl in H.
        -- destruct H as (z & -> & Hz). simpl. eauto.
        -- destruct H as (Hd & l & r & -> & Hl & Hr). simpl. eauto.
        -- destruct H as (Hd & a & -> & Ha). simpl. eauto.
      * simpl in H. subst t. exact Ha.
    + (* SynthIntConst *)
      destruct (nonempty (int_literals cx)); simpl in H; [|discriminate].
      bind_inv H. apply inj_ret in H as [<- _].
      apply choice_Ok_inv in Hc as [Hc _]. simpl. eauto.
    + (* SynthIntAdd *)
      destruct (Z.leb_spec depth 1); [discriminate|].
      bind_inv H. bind_inv H. apply inj_ret in H as [<- _].
      apply IH in Hc, Hc0. simpl. eauto 10.
    + (* SynthListLen *)
      destruct (Z.leb_spec depth 1); [discriminate|].
      bind_inv H. apply inj_ret in H as [<- _].
      apply IH in Hc. destruct Hc as (a & -> & Ha). simpl. eauto.
    + (* SynthBoolConst *)
      destruct (nonempty (bool_literals cx)); simpl in H; [|discriminate].
      bind_inv H. apply inj_ret in H as [<- _].
      apply choice_Ok_inv in Hc as [Hc _]. simpl. eauto.
    + (* SynthBoolAnd *)
      destruct (Z.leb_spec depth 1); [discriminate|].
      bind_inv H. by apply IH in Hc.
    + (* SynthStr *)
      bind_inv H. apply choice_Ok_inv in Hc as [Hc _]. apply IH in H.
      apply choices_elem in Hc as [(op & -> & Hop)|(a & -> & Ha)].
      * apply valid_str_ops_elem in Hop as [Hop _].
        pose proof (registered_str_op _ _ Hreg Hop) as Hb.
        destruct op; try discriminate; simpl in H.
        -- destruct H as (s & -> & Hs). simpl. eauto.
        -- destruct H as (Hd & l & r & -> & Hl & Hr). simpl. eauto.
      * simpl in H. subst t. exact Ha.
    + (* SynthStrConst *)
      destruct (nonempty (str_literals cx)); simpl in H; [|discriminate].
      bind_inv H. apply inj_ret in H as [<- _].
      apply choice_Ok_inv in Hc as [Hc _]. simpl. eauto.
    + (* SynthStrAdd *)
      destruct (Z.leb_spec depth 1); [discriminate|].
      bind_inv H. bind_inv H. apply inj_ret in H as [<- _].
      apply IH in Hc, Hc0. simpl. eauto 10.
    + (* SynthList *)
      bind_inv H. apply choice_Ok_inv in Hc as [Hc _]. apply IH in H.
      apply list_elem_of_fmap in Hc as (a & -> & Ha).
      simpl in H. subst t. exists a. done.
  - simpl in H. apply inj_ret in H as [<- _]. done.
Qed.

(** Trees returned through a type class are trees of its grammar. *)
Lemma synthesize_derivable oracle cx fuel T depth p t p' :
  registered cx → T ∈ working_types →
  synthesize oracle fuel (CClass T) depth cx p = (Ok t, p') →
  derivable cx T depth t.
Proof.
  intros Hreg HT H.
  pose proof (synthesize_target_tree _ _ _ Hreg _ _ _ _ _ H) as Ht.
  unfold working_types in HT. rewrite !elem_of_cons, elem_of_nil in HT.
  destruct HT as [->|[->|[->|[]]]]; exact Ht.
Qed.

(** X1. With registered operator pools, a tree returned by the
    synthesis of Integer, String or List is a tree of that type's
    grammar within the depth budget: parameters of the type, constants
    of the type's literal pool, and enabled operators over trees one
    level lower. *)
Theorem synthesize_sound oracle cx fuel T depth p t p' :
  registered cx → T ∈ working_types →
  synthesize oracle fuel (CClass T) depth cx p = (Ok t, p') →
  derivable cx T depth t.
Proof. by apply synthesize_derivable. Qed.

Lemma synthesize_sound_witness : derivable main_pools Cls.SynthInt 4 main_tree.
Proof.
  apply (synthesize_sound (fun k => k * 7 + 1)%nat main_pools 20 Cls.SynthInt 4
           0%nat main_tree 11%nat main_pools_registered).
  - unfold working_types. apply elem_of_cons. by left.
  - reflexivity.
Defined.

(** ** Every tree of the grammar can be drawn *)

Lemma choice_index {A} (seq : list A) x :
  x ∈ seq → ∃ i, ∀ oracle p, oracle p = i → choice oracle seq p = (Ok x, S p).
Proof.
  intros Hx. apply list_elem_of_lookup in Hx as [i Hi].
  pose proof (lookup_lt_Some _ _ _ Hi) as Hlt.
  exists i. intros oracle p Ho. destruct seq as [|x0 seq']; [simpl in Hlt; lia|].
  unfold choice. rewrite Ho, Nat.mod_small by done.
  f_equal. f_equal. by apply nth_lookup_Some.
Qed.

Lemma synthesize_Ok_fuel oracle cx fuel fuel' target depth p t p' :
  (fuel ≤ fuel')%nat →
  synthesize oracle fuel target depth cx p = (Ok t, p') →
  synthesize oracle fuel' target depth cx p = (Ok t, p').
Proof.
  intros Hle H. rewrite (synthesize_fuel_mono _ _ fuel); [done|done|].
  rewrite H. discriminate.
Qed.

Lemma reaches_arg cx a depth : reaches cx (CArg a) depth (SynthArg a).
Proof. intros p. by exists (fun _ => 0%nat), 1%nat, p. Qed.

(** A type class reaches whatever one of its candidates reaches. *)
Lemma reaches_type_class cx T depth l c t :
  class_choices T depth cx = Some l → c ∈ l →
  reaches cx c depth t → reaches cx (CClass T) depth t.
Proof.
  intros Hl Hc Hr p. destruct (choice_index l c Hc) as [i Hi].
  destruct (Hr (S p)) as (o & fuel & p' & H).
  exists (patch i p o), (S fuel), p'.
  rewrite (synthesize_type_class _ _ _ _ _ _ _ Hl). unfold bind.
  rewrite (Hi (patch i p o) p); [|unfold patch; by rewrite Nat.eqb_refl].
  apply (synthesize_local o (patch i p o) cx fuel c depth _ _ _ H).
  intros k Hk. unfold patch. destruct (Nat.eqb_spec k p); [lia|done].
Qed.

(** Two runs in a row, each with the draws that suit it. *)
Lemma reaches_seq cx tl tr depth l r :
  reaches cx tl depth l → reaches cx tr depth r →
  ∀ p, ∃ oracle fuel p1 p2,
    synthesize oracle fuel tl depth cx p = (Ok l, p1)
    ∧ synthesize oracle fuel tr depth cx p1 = (Ok r, p2).
Proof.
  intros Hl Hr p.
  destruct (Hl p) as (o_l & f_l & p1 & El).
  destruct (Hr p1) as (o_r & f_r & p2 & Er).
  exists (splice p1 o_l o_r), (Nat.max f_l f_r), p1, p2. split.
  - apply (synthesize_Ok_fuel _ _ f_l); [lia|].
    apply (synthesize_local o_l _ cx f_l tl depth _ _ _ El).
    intros k Hk. unfold splice. destruct (Nat.ltb_spec k p1); [done|lia].
  - apply (synthesize_Ok_fuel _ _ f_r); [lia|].
    apply (synthesize_local o_r _ cx f_r tr depth _ _ _ Er).
    intros k Hk. unfold splice. destruct (Nat.ltb_spec k p1); [lia|done].
Qed.

Lemma reaches_int_const cx depth z :
  z ∈ int_literals cx → reaches cx (CClass Cls.SynthIntConst) depth (SynthIntConst (LInt z)).
Proof.
  intros Hz p. destruct (choice_index _ _ Hz) as [i Hi].
  exists (fun _ => i), 1%nat, (S p). simpl.
  destruct (int_literals cx) eqn:E; [by apply elem_of_nil in Hz|]. simpl.
  unfold bind. by rewrite (Hi (fun _ => i) p).
Qed.

Lemma reaches_str_const cx depth s :
  s ∈ str_literals cx → reaches cx (CClass Cls.SynthStrConst) depth (SynthStrConst (LStr s)).
Proof.
  intros Hs p. destruct (choice_index _ _ Hs) as [i Hi].
  exists (fun _ => i), 1%nat, (S p). simpl.
  destruct (str_literals cx) eqn:E; [by apply elem_of_nil in Hs|]. simpl.
  unfold bind. by rewrite (Hi (fun _ => i) p).
Qed.

Lemma reaches_int_add cx depth l r :
  1 < depth →
  reaches cx (CClass Cls.SynthInt) (depth - 1) l →
  reaches cx (CClass Cls.SynthInt) (depth - 1) r →
  reaches cx (CClass Cls.SynthIntAdd) depth (SynthIntAdd l r).
Proof.
  intros Hd Hl Hr p.
  destruct (reaches_seq _ _ _ _ _ _ Hl Hr p) as (o & fuel & p1 & p2 & El & Er).
  exists o, (S fuel), p2. simpl.
  destruct (Z.leb_spec depth 1); [lia|]. unfold bind. by rewrite El, Er.
Qed.

Lemma reaches_str_add cx depth l r :
  1 < depth →
  reaches cx (CClass Cls.SynthStr) (depth - 1) l →
  reaches cx (CClass Cls.SynthStr) (depth - 1) r →
  reaches cx (CClass Cls.SynthStrAdd) depth (SynthStrAdd l r).
Proof.
  intros Hd Hl Hr p.
  destruct (reaches_seq _ _ _ _ _ _ Hl Hr p) as (o & fuel & p1 & p2 & El & Er).
  exists o, (S fuel), p2. simpl.
  destruct (Z.leb_spec depth 1); [lia|]. unfold bind. by rewrite El, Er.
Qed.

Lemma reaches_list cx depth a :
  a ∈ list_args cx → reaches cx (CClass Cls.SynthList) depth (SynthArg a).
Proof.
  intros Ha. apply (reaches_type_class cx Cls.SynthList depth _ (CArg a) _ eq_refl).
  - by apply list_elem_of_fmap_2.
  - apply reaches_arg.
Qed.

Lemma reaches_list_len cx depth a :
  1 < depth → a ∈ list_args cx →
  reaches cx (CClass Cls.SynthListLen) depth (SynthListLen (SynthArg a)).
Proof.
  intros Hd Ha p.
  destruct (reaches_list cx (depth - 1) a Ha p) as (o & fuel & p' & E).
  exists o, (S fuel), p'. simpl.
  destruct (Z.leb_spec depth 1); [lia|]. unfold bind. by rewrite E.
Qed.

Lemma int_tree_reaches cx t :
  ∀ depth, int_tree cx depth t → reaches cx (CClass Cls.SynthInt) depth t.
Proof.
  induction t as [a|c|l IHl r IHr|i IHi|c|l IHl r IHr|c|l IHl r IHr];
    intros depth Ht; simpl in Ht; try done.
  - apply (reaches_type_class cx Cls.SynthInt depth _ (CArg a) _ eq_refl); [|apply reaches_arg].
    apply choices_elem. right. eauto.
  - destruct Ht as (Hop & z & -> & Hz).
    apply (reaches_type_class cx Cls.SynthInt depth _ (CClass Cls.SynthIntConst) _ eq_refl);
      [|by apply reaches_int_const].
    apply choices_elem. left. eexists. split; [done|].
    apply valid_int_ops_elem. split; [done|]. left. split; [done|].
    intros E. rewrite E in Hz. by apply elem_of_nil in Hz.
  - destruct Ht as (Hop & Hd & Hl & Hr).
    apply (reaches_type_class cx Cls.SynthInt depth _ (CClass Cls.SynthIntAdd) _ eq_refl);
      [|apply reaches_int_add; auto].
    apply choices_elem. left. eexists. split; [done|].
    apply valid_int_ops_elem. split; [done|]. by right.
  - destruct Ht as (Hop & Hd & a & -> & Ha).
    apply (reaches_type_class cx Cls.SynthInt depth _ (CClass Cls.SynthListLen) _ eq_refl);
      [|by apply reaches_list_len].
    apply choices_elem. left. eexists. split; [done|].
    apply valid_int_ops_elem. split; [done|]. by right.
Qed.

Lemma str_tree_reaches cx t :
  ∀ depth, str_tree cx depth t → reaches cx (CClass Cls.SynthStr) depth t.
Proof.
  induction t as [a|c|l IHl r IHr|i IHi|c|l IHl r IHr|c|l IHl r IHr];
    intros depth Ht; simpl in Ht; try done.
  - apply (reaches_type_class cx Cls.SynthStr depth _ (CArg a) _ eq_refl); [|apply reaches_arg].
    apply choices_elem. right. eauto.
  - destruct Ht as (Hop & s & -> & Hs).
    apply (reaches_type_class cx Cls.SynthStr depth _ (CClass Cls.SynthStrConst) _ eq_refl);
      [|by apply reaches_str_const].
    apply choices_elem. left. eexists. split; [done|].
    apply valid_str_ops_elem. split; [done|]. left. split; [done|].
    intros E. rewrite E in Hs. by apply elem_of_nil in Hs.
  - destruct Ht as (Hop & Hd & Hl & Hr).
    apply (reaches_type_class cx Cls.SynthStr depth _ (CClass Cls.SynthStrAdd) _ eq_refl);
      [|apply reaches_str_add; auto].
    apply choices_elem. left. eexists. split; [done|].
    apply valid_str_ops_elem. split; [done|]. by right.
Qed.

(** Trees of the grammar are reached by some draws. *)
Lemma derivable_reaches cx T depth t p :
  derivable cx T depth t →
  ∃ oracle fuel p',
    synthesize oracle fuel (CClass T) depth cx p = (Ok t, p').
Proof.
  intros Ht. destruct T; simpl in Ht; try done.
  - by apply int_tree_reaches.
  - by apply str_tree_reaches.
  - destruct Ht as (a & -> & Ha). by apply reaches_list.
Qed.

(** X2. Every tree of a type's grammar within the depth budget is
    returned by the synthesis of that type for some sequence of random
    draws, whatever else the pools hold. *)
Theorem synthesize_complete cx T depth t p :
  derivable cx T depth t →
  ∃ oracle fuel p',
    synthesize oracle fuel (CClass T) depth cx p = (Ok t, p').
Proof. by apply derivable_reaches. Qed.

Lemma synthesize_complete_witness :
  ∃ oracle fuel p',
    synthesize oracle fuel (CClass Cls.SynthInt) 3 main_pools 0%nat
    = (Ok (SynthIntAdd (SynthListLen (SynthArg (mk_arg "l" Cls.SynthList)))
                       (SynthIntConst (LInt 9))), p').
Proof.
  apply synthesize_complete. simpl.
  split; [repeat constructor|]. split; [lia|]. split.
  - split; [repeat constructor|]. split; [lia|].
    exists (mk_arg "l" Cls.SynthList). split; [reflexivity|repeat constructor].
  - split; [repeat constructor|]. exists 9. split; [reflexivity|repeat constructor].
Defined.

(** ** Types of values *)

Lemma int_tree_evaluate cx (e : gmap string value) t :
  env_typed (input_args cx) e →
  ∀ depth, int_tree cx depth t →
    declared_type t = Cls.SynthInt ∧ ∃ z, evaluate t e = Ok (VInt z).
Proof.
  intros He.
  induction t as [a|c|l IHl r IHr|i IHi|c|l IHl r IHr|c|l IHl r IHr];
    intros depth Ht; simpl in Ht; try done.
  - apply args_of_type_elem in Ht as [Ha Hty]. split; [done|].
    destruct (He a Ha) as (v & Hv & Htv). simpl. rewrite Hv.
    rewrite Hty in Htv. destruct v; try discriminate. eauto.
  - destruct Ht as (_ & z & -> & _). split; [done|]. simpl. eauto.
  - destruct Ht as (_ & _ & Hl & Hr). split; [done|].
    destruct (IHl _ Hl) as (_ & x & El). destruct (IHr _ Hr) as (_ & y & Er).
    simpl. rewrite El, Er. simpl. eauto.
  - destruct Ht as (_ & _ & a & -> & Ha). split; [done|].
    apply args_of_type_elem in Ha as [Ha Hty].
    destruct (He a Ha) as (v & Hv & Htv). simpl. rewrite Hv.
    rewrite Hty in Htv. destruct v; try discriminate. simpl. eauto.
Qed.

Lemma str_tree_evaluate cx (e : gmap string value) t :
  env_typed (input_args cx) e →
  ∀ depth, str_tree cx depth t →
    declared_type t = Cls.SynthStr ∧ ∃ s, evaluate t e = Ok (VStr s).
Proof.
  intros He.
  induction t as [a|c|l IHl r IHr|i IHi|c|l IHl r IHr|c|l IHl r IHr];
    intros depth Ht; simpl in Ht; try done.
  - apply args_of_type_elem in Ht as [Ha Hty]. split; [done|].
    destruct (He a Ha) as (v & Hv & Htv). simpl. rewrite Hv.
    rewrite Hty in Htv. destruct v; try discriminate. eauto.
  - destruct Ht as (_ & s & -> & _). split; [done|]. simpl. eauto.
  - destruct Ht as (_ & _ & Hl & Hr). split; [done|].
    destruct (IHl _ Hl) as (_ & x & El). destruct (IHr _ Hr) as (_ & y & Er).
    simpl. rewrite El, Er. simpl. eauto.
Qed.

Lemma derivable_evaluate cx T depth t (e : gmap string value) :
  env_typed (input_args cx) e → derivable cx T depth t →
  declared_type t = T ∧ ∃ v, evaluate t e = Ok v ∧ type_of_value v = T.
Proof.
  intros He Ht. destruct T; simpl in Ht; try done.
  - destruct (int_tree_evaluate cx e t He _ Ht) as (? & z & ->). eauto.
  - destruct (str_tree_evaluate cx e t He _ Ht) as (? & s & ->). eauto.
  - destruct Ht as (a & -> & Ha). apply args_of_type_elem in Ha as [Ha Hty].
    destruct (He a Ha) as (v & Hv & Htv). simpl. rewrite Hv.
    split; [done|]. exists v. split; [done|congruence].
Qed.

(** Synthesized trees evaluate to values of their type. *)
Lemma synthesize_typed oracle cx fuel T depth p t p' (e : gmap string value) :
  registered cx → T ∈ working_types →
  synthesize oracle fuel (CClass T) depth cx p = (Ok t, p') →
  env_typed (input_args cx) e →
  declared_type t = T ∧ ∃ v, evaluate t e = Ok v ∧ type_of_value v = T.
Proof.
  intros Hreg HT H He. apply (derivable_evaluate cx T depth); [done|].
  by apply (synthesize_derivable oracle cx fuel T depth p t p').
Qed.

(** X3. With registered operator pools, a tree synthesized for Integer,
    String or List declares that type, and in every environment that
    binds each declared parameter to a value of its declared type it
    evaluates, without an exception, to a value of that type. *)
Theorem synthesize_type_sound oracle cx fuel T depth p t p' (e : gmap string value) :
  registered cx → T ∈ working_types →
  synthesize oracle fuel (CClass T) depth cx p = (Ok t, p') →
  env_typed (input_args cx) e →
  declared_type t = T ∧ ∃ v, evaluate t e = Ok v ∧ type_of_value v = T.
Proof. by apply synthesize_typed. Qed.

Lemma synthesize_type_sound_witness :
  declared_type main_tree = Cls.SynthInt
  ∧ ∃ v, evaluate main_tree {[ "l"%string := VList [VInt 0; VInt 1; VInt 2] ]} = Ok v
       ∧ type_of_value v = Cls.SynthInt.
Proof.
  apply (synthesize_type_sound (fun k => k * 7 + 1)%nat main_pools 20 Cls.SynthInt 4
           0%nat main_tree 11%nat _ main_pools_registered).
  - unfold working_types. apply elem_of_cons. by left.
  - reflexivity.
  - intros a Ha. apply list_elem_of_singleton in Ha as ->.
    exists (VList [VInt 0; VInt 1; VInt 2]). split; reflexivity.
Defined.

(** ** Parameters of synthesized trees *)

Lemma synthesize_params oracle cx fuel x :
  ∀ target depth p t p',
    synthesize oracle fuel target depth cx p = (Ok t, p') →
    has_param x t = true →
    match target with
    | CArg a => name a = x
    | CClass _ => ∃ a, a ∈ input_args cx ∧ name a = x
    end.
Proof.
  induction fuel as [|fuel IH]; intros target depth p t p' H Hx; [discriminate|].
  destruct target as [c|a].
  - destruct c; simpl in H; try discriminate.
    + (* SynthInt *)
      bind_inv H. apply choice_Ok_inv in Hc as [Hc _].
      pose proof (IH _ _ _ _ _ H Hx) as Hp.
      apply choices_elem in Hc as [(op & -> & _)|(a & -> & Ha)]; [done|].
      apply args_of_type_elem in Ha as [Ha _]. eauto.
    + destruct (nonempty (int_literals cx)); simpl in H; [|discriminate].
      bind_inv H. apply inj_ret in H as [<- _]. discriminate.
    + destruct (Z.leb_spec depth 1); [discriminate|].
      bind_inv H. bind_inv H. apply inj_ret in H as [<- _].
      simpl in Hx. apply orb_true_iff in Hx as [Hx|Hx].
      * apply (IH _ _ _ _ _ Hc Hx).
      * apply (IH _ _ _ _ _ Hc0 Hx).
    + destruct (Z.leb_spec depth 1); [discriminate|].
      bind_inv H. apply inj_ret in H as [<- _]. apply (IH _ _ _ _ _ Hc Hx).
    + destruct (nonempty (bool_literals cx)); simpl in H; [|discriminate].
      bind_inv H. apply inj_ret in H as [<- _]. discriminate.
    + destruct (Z.leb_spec depth 1); [discriminate|].
      bind_inv H. bind_inv H. apply inj_ret in H as [<- _].
      simpl in Hx. apply orb_true_iff in Hx as [Hx|Hx].
      * apply (IH _ _ _ _ _ Hc Hx).
      * apply (IH _ _ _ _ _ Hc0 Hx).
    + (* SynthStr *)
      bind_inv H. apply choice_Ok_inv in Hc as [Hc _].
      pose proof (IH _ _ _ _ _ H Hx) as Hp.
      apply choices_elem in Hc as [(op & -> & _)|(a & -> & Ha)]; [done|].
      apply args_of_type_elem in Ha as [Ha _]. eauto.
    + destruct (nonempty (str_literals cx)); simpl in H; [|discriminate].
      bind_inv H. apply inj_ret in H as [<- _]. discriminate.
    + destruct (Z.leb_spec depth 1); [discriminate|].
      bind_inv H. bind_inv H. apply inj_ret in H as [<- _].
      simpl in Hx. apply orb_true_iff in Hx as [Hx|Hx].
      * apply (IH _ _ _ _ _ Hc Hx).
      * apply (IH _ _ _ _ _ Hc0 Hx).
    + (* SynthList *)
      bind_inv H. apply choice_Ok_inv in Hc as [Hc _].
      pose proof (IH _ _ _ _ _ H Hx) as Hp.
      apply list_elem_of_fmap in Hc as (a & -> & Ha).
      apply args_of_type_elem in Ha as [Ha _]. eauto.
  - simpl in H. apply inj_ret in H as [<- _]. simpl in Hx.
    by apply bool_decide_eq_true in Hx.
Qed.

(** Referenced names are names of declared parameters. *)
Lemma synthesize_param_declared oracle cx fuel c depth p t p' x :
  synthesize oracle fuel (CClass c) depth cx p = (Ok t, p') →
  has_param x t = true →
  ∃ a, a ∈ input_args cx ∧ name a = x.
Proof. intros H Hx. apply (synthesize_params _ _ _ _ _ _ _ _ _ H Hx). Qed.

(** X4. Whatever class is asked for and whatever the pools hold, a
    synthesized tree refers only to names of the declared parameters. *)
Theorem synthesize_declared_params oracle cx fuel c depth p t p' x :
  synthesize oracle fuel (CClass c) depth cx p = (Ok t, p') →
  has_param x t = true →
  ∃ a, a ∈ input_args cx ∧ name a = x.
Proof. by apply synthesize_param_declared. Qed.

Lemma synthesize_declared_params_witness :
  ∃ a, a ∈ input_args main_pools ∧ name a = "l"%string.
Proof.
  apply (synthesize_declared_params (fun k => k * 7 + 1)%nat main_pools 20
           Cls.SynthInt 4 0%nat main_tree 11%nat "l"); reflexivity.
Defined.

(** ** Environments *)

(** X5. Evaluation reads the environment only at the names the tree
    refers to: two environments that agree on them give the same
    result, value or exception. *)
Theorem evaluate_frame t (e1 e2 : gmap string value) :
  (∀ x, has_param x t = true → e1 !! x = e2 !! x) →
  evaluate t e1 = evaluate t e2.
Proof.
  induction t as [a|c|l IHl r IHr|i IHi|c|l IHl r IHr|c|l IHl r IHr];
    intros Hag; simpl in *; try done.
  - rewrite (Hag (name a)); [done|]. by apply bool_decide_eq_true.
  - rewrite IHl, IHr; [done| |]; intros x Hx; apply Hag; rewrite Hx;
      [apply orb_true_r|done].
  - by rewrite IHi.
  - rewrite IHl, IHr; [done| |]; intros x Hx; apply Hag; rewrite Hx;
      [apply orb_true_r|done].
  - rewrite IHl, IHr; [done| |]; intros x Hx; apply Hag; rewrite Hx;
      [apply orb_true_r|done].
Qed.

Lemma evaluate_frame_witness :
  evaluate main_tree {[ "l"%string := VList [VInt 0] ]}
  = evaluate main_tree (<[ "unused"%string := VInt 7 ]> {[ "l"%string := VList [VInt 0] ]}).
Proof.
  apply evaluate_frame. intros x Hx.
  assert (x = "l"%string) as ->.
  { simpl in Hx. rewrite !orb_true_iff, !bool_decide_eq_true in Hx.
    destruct Hx as [Hx|[Hx|Hx]]; try discriminate; by rewrite <- Hx. }
  reflexivity.
Defined.

Lemma foldl_store_is_Some (l : list (arg * value)) (m : gmap string value) x :
  is_Some (foldl store m l !! x)
  ↔ is_Some (m !! x) ∨ ∃ q, q ∈ l ∧ name q.1 = x.
Proof.
  revert m. induction l as [|q l IH]; intros m; simpl.
  - split; [by left|]. intros [H|(q & Hq & _)]; [done|]. by apply elem_of_nil in Hq.
  - rewrite IH. unfold store. rewrite lookup_insert_is_Some. split.
    + intros [[Hq|[_ Hm]]|(q' & Hq' & Hn)].
      * right. exists q. split; [by left|done].
      * by left.
      * right. exists q'. split; [by right|done].
    + intros [Hm|(q' & Hq' & Hn)].
      * destruct (decide (name q.1 = x)); [left; by left|left; right; done].
      * apply elem_of_cons in Hq' as [->|Hq']; [left; by left|].
        right. eauto.
Qed.

(** The names the built environment binds. *)
Lemma make_env_is_Some (params : list arg) (args : list value) :
  (∀ x, is_Some (make_env params args !! x) → ∃ a, a ∈ params ∧ name a = x)
  ∧ ((length params ≤ length args)%nat →
     ∀ a, a ∈ params → is_Some (make_env params args !! name a)).
Proof.
  unfold make_env. split.
  - intros x Hx. apply foldl_store_is_Some in Hx as [Hx|([a v] & Hq & Hn)].
    + rewrite lookup_empty in Hx. by destruct Hx.
    + exists a. split; [|done]. unfold zip in Hq.
      apply list_elem_of_lookup in Hq as [i Hi].
      apply lookup_zip_with_Some in Hi as (a' & v' & ? & Ha & _). simplify_eq.
      apply list_elem_of_lookup. eauto.
  - intros Hlen a Ha. apply foldl_store_is_Some. right.
    apply list_elem_of_lookup in Ha as [i Hi].
    pose proof (lookup_lt_Some _ _ _ Hi) as Hlt.
    destruct (lookup_lt_is_Some_2 args i) as [v Hv]; [lia|].
    exists (a, v). split; [|done].
    apply list_elem_of_lookup. exists i. unfold zip.
    apply lookup_zip_with_Some. eauto.
Qed.

(** X6. The environment built from parameters and arguments binds only
    names of parameters, and binds the name of every parameter when
    there are at least as many arguments as parameters. *)
Theorem make_env_names (params : list arg) (args : list value) :
  (∀ x, is_Some (make_env params args !! x) → ∃ a, a ∈ params ∧ name a = x)
  ∧ ((length params ≤ length args)%nat →
     ∀ a, a ∈ params → is_Some (make_env params args !! name a)).
Proof. by apply make_env_is_Some. Qed.

Lemma make_env_names_witness :
  is_Some (make_env two_params [VInt 1; VInt 2; VInt 3] !! "y").
Proof.
  apply (proj2 (make_env_names two_params [VInt 1; VInt 2; VInt 3]))
    with (a := mk_arg "y" Cls.SynthInt).
  - simpl. lia.
  - unfold two_params. apply elem_of_cons. right. apply elem_of_cons. by left.
Defined.

Lemma make_func_Ok_inv oracle fuel depth cx p line f p' :
  make_func oracle fuel depth cx p = (Ok (line, f), p') →
  ∃ expr, synthesize oracle fuel (CClass (output_type cx)) depth cx p = (Ok expr, p')
    ∧ f = inner_func (input_args cx) expr
    ∧ line = "lambda " +:+ String.concat "," (map name (input_args cx))
             +:+ ": " +:+ render expr.
Proof.
  unfold make_func. intros H. bind_inv H. apply inj_ret in H as [H <-].
  exists c. by simplify_eq.
Qed.

(** X7. A function returned by [make_func], called with as many
    arguments as there are parameters, never raises KeyError: the tree
    refers only to declared parameters and the environment binds them
    all. *)
Theorem compiled_no_key_error oracle fuel depth cx p line f p' args msg :
  make_func oracle fuel depth cx p = (Ok (line, f), p') →
  length args = length (input_args cx) →
  f args ≠ Raise (KeyError msg).
Proof.
  intros H Hlen E. apply make_func_Ok_inv in H as (expr & Hs & -> & _).
  unfold inner_func in E. rewrite Hlen, Nat.eqb_refl in E. simpl in E.
  apply evaluate_Raise_inv in E as [E|(y & Hy & Hnone & _)]; [discriminate|].
  destruct (synthesize_param_declared _ _ _ _ _ _ _ _ _ Hs Hy) as (a & Ha & <-).
  destruct (proj2 (make_env_is_Some (input_args cx) args) ltac:(lia) a Ha) as [v Hv].
  congruence.
Qed.

Lemma compiled_no_key_error_witness :
  inner_func (input_args main_pools) main_tree [VInt 3]
  ≠ Raise (KeyError (key_error_msg "l")).
Proof.
  apply (compiled_no_key_error (fun k => k * 7 + 1)%nat 20 4 main_pools 0%nat
           ("lambda l: (len(l) + (len(l) + (7 + 1)))"%string)
           (inner_func (input_args main_pools) main_tree) 11%nat);
    reflexivity.
Defined.

Lemma make_env_typed (params : list arg) (args : list value) :
  NoDup (map name params) →
  Forall2 (fun a v => type_of_value v = argtype a) params args →
  env_typed params (make_env params args).
Proof.
  intros Hnd Hty a Ha. apply list_elem_of_lookup in Ha as [i Hi].
  destruct (Forall2_lookup_l _ _ _ _ _ Hty Hi) as (v & Hv & Htv).
  exists v. split; [|done]. apply (make_env_lookup _ _ i); [done|done|].
  intros j b Hj Hb Hname.
  assert (i = j); [|lia].
  apply (NoDup_lookup _ _ _ (name a) Hnd).
  - change (map name params) with (name <$> params).
    by rewrite list_lookup_fmap, Hi.
  - change (map name params) with (name <$> params).
    by rewrite list_lookup_fmap, Hb, <- Hname.
Qed.

(** X8. With registered operator pools, distinct parameter names and an
    output type among Integer, String and List, a function returned by
    [make_func] maps arguments of the declared parameter types to a
    value of the output type, without raising. *)
Theorem compiled_type_sound oracle fuel depth cx p line f p' args :
  registered cx → output_type cx ∈ working_types →
  NoDup (map name (input_args cx)) →
  make_func oracle fuel depth cx p = (Ok (line, f), p') →
  Forall2 (fun a v => type_of_value v = argtype a) (input_args cx) args →
  ∃ v, f args = Ok v ∧ type_of_value v = output_type cx.
Proof.
  intros Hreg HT Hnd H Hty. apply make_func_Ok_inv in H as (expr & Hs & -> & _).
  unfold inner_func. rewrite (Forall2_length _ _ _ Hty), Nat.eqb_refl. simpl.
  apply (synthesize_typed _ _ _ _ _ _ _ _ _ Hreg HT Hs).
  by apply make_env_typed.
Qed.

Lemma compiled_type_sound_witness :
  ∃ v, inner_func (input_args main_pools) main_tree [VList [VInt 0; VInt 1; VInt 2]]
       = Ok v
    ∧ type_of_value v = output_type main_pools.
Proof.
  apply (compiled_type_sound (fun k => k * 7 + 1)%nat 20 4 main_pools 0%nat
           ("lambda l: (len(l) + (len(l) + (7 + 1)))"%string)
           (inner_func (input_args main_pools) main_tree) 11%nat
           [VList [VInt 0; VInt 1; VInt 2]] main_pools_registered).
  - unfold working_types. apply elem_of_cons. by left.
  - simpl. repeat constructor. apply not_elem_of_nil.
  - reflexivity.
  - repeat constructor.
Defined.

(** ** When synthesis returns *)

Lemma feasible_int cx :
  feasible Cls.SynthInt cx = true
  ↔ ((Cls.SynthIntConst ∈ int_ops cx ∧ int_literals cx ≠ []) ∨ int_args cx ≠ [])
    ∧ (Cls.SynthListLen ∈ int_ops cx → list_args cx ≠ []).
Proof.
  unfold feasible.
  rewrite andb_true_iff, !orb_true_iff, andb_true_iff, negb_true_iff.
  rewrite bool_decide_eq_true, bool_decide_eq_false, !nonempty_true.
  split; intros [H1 H2]; (split; [done|]).
  - intros Hop. destruct H2 as [H2|H2]; done.
  - destruct (decide (Cls.SynthListLen ∈ int_ops cx)); auto.
Qed.

Lemma feasible_str cx :
  feasible Cls.SynthStr cx = true
  ↔ (Cls.SynthStrConst ∈ str_ops cx ∧ str_literals cx ≠ []) ∨ str_args cx ≠ [].
Proof.
  unfold feasible.
  by rewrite orb_true_iff, andb_true_iff, bool_decide_eq_true, !nonempty_true.
Qed.

Lemma app_not_nil {A} (l k : list A) : l ≠ [] ∨ k ≠ [] → l ++ k ≠ [].
Proof. destruct l; simpl; [|done]. by intros [|]. Qed.

Lemma map_not_nil {A B} (f : A -> B) (l : list A) : l ≠ [] → map f l ≠ [].
Proof. by destruct l. Qed.

Lemma elem_not_nil {A} (l : list A) x : x ∈ l → l ≠ [].
Proof. intros Hx ->. by apply elem_of_nil in Hx. Qed.

Lemma synthesize_succeeds oracle cx :
  registered cx →
  ∀ fuel target depth p,
    (frames target depth ≤ fuel)%nat →
    target_feasible cx target depth →
    ∃ t p', synthesize oracle fuel target depth cx p = (Ok t, p').
Proof.
  intros Hreg. induction fuel as [|fuel IH]; intros target depth p Hfr Hf.
  { destruct target as [[]|]; simpl in Hfr; lia. }
  destruct target as [c|a]; [|by eexists _, _].
  destruct c; simpl in *; try done.
  - (* SynthInt *)
    pose proof Hf as Hf'. apply feasible_int in Hf' as [Hleaf Hlen].
    destruct (choice_elem oracle
                (map CClass (valid_int_ops depth cx) ++ map CArg (int_args cx)) p)
      as (c & Hc & E).
    { apply app_not_nil. destruct Hleaf as [[Hop Hl]|Ha].
      - left. apply map_not_nil, (elem_not_nil _ Cls.SynthIntConst).
        apply valid_int_ops_elem. auto.
      - right. by apply map_not_nil. }
    unfold bind. rewrite E. apply IH.
    + apply int_choices_inv in Hc as [[a ->]|(op & -> & Hop & Hd)]; simpl; [lia|].
      apply (registered_int_op _ _ Hreg) in Hop.
      destruct op; try discriminate; destruct Hd as [|]; try discriminate; lia.
    + apply choices_elem in Hc as [(op & -> & Hop)|(a & -> & Ha)]; [|done].
      apply valid_int_ops_elem in Hop as [Hop Hcase].
      pose proof (registered_int_op _ _ Hreg Hop) as Hb.
      destruct op; try discriminate; simpl.
      * by destruct Hcase as [[_ ?]|[? _]].
      * destruct Hcase as [[? _]|[_ ?]]; [discriminate|done].
      * destruct Hcase as [[? _]|[_ ?]]; [discriminate|auto].
  - (* SynthIntConst *)
    destruct (choice_elem oracle _ p Hf) as (z & _ & E).
    destruct (int_literals cx); [done|]. simpl. unfold bind. rewrite E.
    by eexists _, _.
  - (* SynthIntAdd *)
    destruct Hf as [Hd Hf]. destruct (Z.leb_spec depth 1); [lia|].
    assert (Hfr' : (frames (CClass Cls.SynthInt) (depth - 1) ≤ fuel)%nat)
      by (simpl; lia).
    destruct (IH (CClass Cls.SynthInt) (depth - 1) p Hfr' Hf) as (l & p1 & El).
    destruct (IH (CClass Cls.SynthInt) (depth - 1) p1 Hfr' Hf) as (r & p2 & Er).
    unfold bind. rewrite El, Er. by eexists _, _.
  - (* SynthListLen *)
    destruct Hf as [Hd Hf]. destruct (Z.leb_spec depth 1); [lia|].
    destruct (IH (CClass Cls.SynthList) (depth - 1) p) as (i & p1 & Ei);
      [simpl; lia|done|].
    unfold bind. rewrite Ei. by eexists _, _.
  - (* SynthBoolConst *)
    destruct (choice_elem oracle _ p Hf) as (z & _ & E).
    destruct (bool_literals cx); [done|]. simpl. unfold bind. rewrite E.
    by eexists _, _.
  - (* SynthStr *)
    pose proof Hf as Hleaf. apply feasible_str in Hleaf.
    destruct (choice_elem oracle
                (map CClass (valid_str_ops depth cx) ++ map CArg (str_args cx)) p)
      as (c & Hc & E).
    { apply app_not_nil. destruct Hleaf as [[Hop Hl]|Ha].
      - left. apply map_not_nil, (elem_not_nil _ Cls.SynthStrConst).
        apply valid_str_ops_elem. auto.
      - right. by apply map_not_nil. }
    unfold bind. rewrite E. apply IH.
    + apply str_choices_inv in Hc as [[a ->]|(op & -> & Hop & Hd)]; simpl; [lia|].
      apply (registered_str_op _ _ Hreg) in Hop.
      destruct op; try discriminate; destruct Hd as [|]; try discriminate; lia.
    + apply choices_elem in Hc as [(op & -> & Hop)|(a & -> & Ha)]; [|done].
      apply valid_str_ops_elem in Hop as [Hop Hcase].
      pose proof (registered_str_op _ _ Hreg Hop) as Hb.
      destruct op; try discriminate; simpl.
      * by destruct Hcase as [[_ ?]|[? _]].
      * destruct Hcase as [[? _]|[_ ?]]; [discriminate|done].
  - (* SynthStrConst *)
    destruct (choice_elem oracle _ p Hf) as (z & _ & E).
    destruct (str_literals cx); [done|]. simpl. unfold bind. rewrite E.
    by eexists _, _.
  - (* SynthStrAdd *)
    destruct Hf as [Hd Hf]. destruct (Z.leb_spec depth 1); [lia|].
    assert (Hfr' : (frames (CClass Cls.SynthStr) (depth - 1) ≤ fuel)%nat)
      by (simpl; lia).
    destruct (IH (CClass Cls.SynthStr) (depth - 1) p Hfr' Hf) as (l & p1 & El).
    destruct (IH (CClass Cls.SynthStr) (depth - 1) p1 Hfr' Hf) as (r & p2 & Er).
    unfold bind. rewrite El, Er. by eexists _, _.
  - (* SynthList *)
    destruct (choice_elem oracle (map CArg (list_args cx)) p) as (c & Hc & E);
      [by apply map_not_nil|].
    unfold bind. rewrite E. apply list_choices_inv in Hc as [a ->].
    apply IH; [simpl; lia|done].
Qed.

(** X9. With registered operator pools the synthesis of a type returns a
    tree at every depth and for every random draws, given [enough_fuel]
    frames, as soon as the type has a leaf to end on: for Integer an
    enabled constant with a literal or an Integer parameter, and a List
    parameter if the length operator is enabled; for String an enabled
    constant with a literal or a String parameter; for List a List
    parameter. *)
Theorem synthesis_returns oracle cx T depth fuel p :
  registered cx → feasible T cx = true →
  (enough_fuel depth ≤ fuel)%nat →
  ∃ t p', synthesize oracle fuel (CClass T) depth cx p = (Ok t, p').
Proof.
  intros Hreg Hf Hfuel. apply synthesize_succeeds; [done| |].
  - destruct T; simpl in Hf; try discriminate; unfold enough_fuel in Hfuel;
      simpl; lia.
  - destruct T; simpl in Hf; try discriminate; simpl; try done.
    by apply nonempty_true.
Qed.

Lemma synthesis_returns_witness :
  ∃ t p', synthesize (fun k => 3 * k)%nat 12 (CClass Cls.SynthInt) 5 main_pools 0%nat
          = (Ok t, p').
Proof.
  apply synthesis_returns.
  - apply main_pools_registered.
  - reflexivity.
  - unfold enough_fuel. simpl. lia.
Defined.

(** ** How synthesis fails *)

Lemma synthesize_raises oracle cx :
  registered cx →
  ∀ fuel target depth p e p',
    guarded cx target depth →
    synthesize oracle fuel target depth cx p = (Raise e, p') →
    e = IndexError ∨ e = RecursionError.
Proof.
  intros Hreg. induction fuel as [|fuel IH]; intros target depth p e p' Hg H.
  { right. by injection H as <- _. }
  destruct target as [c|a]; [|discriminate].
  destruct c; simpl in *; try done.
  - (* SynthInt *)
    apply bind_Raise_inv in H as [H|(c & p1 & Hc & H)].
    { left. by apply choice_Raise_inv in H as (_ & -> & _). }
    apply choice_Ok_inv in Hc as [Hc _]. apply IH in H; [done|].
    apply choices_elem in Hc as [(op & -> & Hop)|(a & -> & Ha)]; [|done].
    apply valid_int_ops_elem in Hop as [Hop Hcase].
    pose proof (registered_int_op _ _ Hreg Hop) as Hb.
    destruct op; try discriminate; simpl.
    + by destruct Hcase as [[_ ?]|[? _]].
    + destruct Hcase as [[? _]|[_ ?]]; [discriminate|done].
    + destruct Hcase as [[? _]|[_ ?]]; [discriminate|done].
  - (* SynthIntConst *)
    destruct (int_literals cx) eqn:E; [done|]. simpl in H.
    apply bind_Raise_inv in H as [H|(c & p1 & Hc & H)]; [|discriminate].
    left. by apply choice_Raise_inv in H as (_ & -> & _).
  - (* SynthIntAdd *)
    destruct (Z.leb_spec depth 1); [lia|].
    apply bind_Raise_inv in H as [H|(l & p1 & _ & H)]; [by apply IH in H|].
    apply bind_Raise_inv in H as [H|(r & p2 & _ & H)]; [by apply IH in H|].
    discriminate.
  - (* SynthListLen *)
    destruct (Z.leb_spec depth 1); [lia|].
    apply bind_Raise_inv in H as [H|(l & p1 & _ & H)]; [by apply IH in H|].
    discriminate.
  - (* SynthStr *)
    apply bind_Raise_inv in H as [H|(c & p1 & Hc & H)].
    { left. by apply choice_Raise_inv in H as (_ & -> & _). }
    apply choice_Ok_inv in Hc as [Hc _]. apply IH in H; [done|].
    apply choices_elem in Hc as [(op & -> & Hop)|(a & -> & Ha)]; [|done].
    apply valid_str_ops_elem in Hop as [Hop Hcase].
    pose proof (registered_str_op _ _ Hreg Hop) as Hb.
    destruct op; try discriminate; simpl.
    + by destruct Hcase as [[_ ?]|[? _]].
    + destruct Hcase as [[? _]|[_ ?]]; [discriminate|done].
  - (* SynthStrConst *)
    destruct (str_literals cx) eqn:E; [done|]. simpl in H.
    apply bind_Raise_inv in H as [H|(c & p1 & Hc & H)]; [|discriminate].
    left. by apply choice_Raise_inv in H as (_ & -> & _).
  - (* SynthStrAdd *)
    destruct (Z.leb_spec depth 1); [lia|].
    apply bind_Raise_inv in H as [H|(l & p1 & _ & H)]; [by apply IH in H|].
    apply bind_Raise_inv in H as [H|(r & p2 & _ & H)]; [by apply IH in H|].
    discriminate.
  - (* SynthList *)
    apply bind_Raise_inv in H as [H|(c & p1 & Hc & H)].
    { left. by apply choice_Raise_inv in H as (_ & -> & _). }
    apply choice_Ok_inv in Hc as [Hc _]. apply IH in H; [done|].
    by apply list_choices_inv in Hc as [a ->].
Qed.

(** X10. With registered operator pools, the synthesis of Integer,
    String or List raises nothing but the IndexError of a draw from an
    empty candidate list, given [enough_fuel] frames: the ValueError of
    the constant classes and the RuntimeError of the operator classes
    are never reached through a type class, whose filter keeps a
    constant only with a literal and an operator only above depth 1. *)
Theorem synthesis_raises_index_error oracle cx T depth fuel p e p' :
  registered cx → T ∈ working_types →
  (enough_fuel depth ≤ fuel)%nat →
  synthesize oracle fuel (CClass T) depth cx p = (Raise e, p') →
  e = IndexError.
Proof.
  intros Hreg HT Hfuel H.
  assert (HT' : T ∈ type_classes).
  { unfold working_types, type_classes in *.
    rewrite !elem_of_cons, elem_of_nil in *. tauto. }
  assert (Hno : ¬ overflows (synthesize oracle fuel (CClass T) depth cx p)).
  { apply synthesize_enough; [done|].
    etrans; [by apply frames_type_class|done]. }
  apply (synthesize_raises _ _ Hreg) in H as Hcase.
  - destruct Hcase as [->| ->]; [done|]. destruct Hno. by rewrite H.
  - unfold working_types in HT. rewrite !elem_of_cons, elem_of_nil in HT.
    by destruct HT as [->|[->|[->|[]]]].
Qed.

Lemma synthesis_raises_index_error_witness :
  synthesize (fun k => k) 12 (CClass Cls.SynthInt) 5 exhausted_pools 0%nat
  = (Raise IndexError, 0%nat)
  ∧ IndexError = IndexError.
Proof.
  split; [reflexivity|].
  apply (synthesis_raises_index_error (fun k => k) exhausted_pools Cls.SynthInt 5
           12 0%nat IndexError 0%nat).
  - unfold registered, exhausted_pools. simpl. repeat split; repeat constructor.
  - unfold working_types. apply elem_of_cons. by left.
  - unfold enough_fuel. simpl. lia.
  - reflexivity.
Defined.

(** ** What synthesis never builds *)

Lemma synthesize_bool_free oracle cx fuel :
  ∀ target depth p t p',
    synthesize oracle fuel target depth cx p = (Ok t, p') →
    bool_free t = true.
Proof.
  induction fuel as [|fuel IH]; intros target depth p t p' H; [discriminate|].
  destruct target as [c|a].
  - destruct c; simpl in H; try discriminate;
      repeat match type of H with
             | context [if ?b then _ else _] => destruct b; simpl in H
             end;
      try discriminate.
    + bind_inv H. by apply IH in H.
    + bind_inv H. by apply inj_ret in H as [<- _].
    + bind_inv H. bind_inv H. apply inj_ret in H as [<- _].
      apply IH in Hc, Hc0. simpl. by rewrite Hc, Hc0.
    + bind_inv H. apply inj_ret in H as [<- _]. by apply IH in Hc.
    + bind_inv H. by apply inj_ret in H as [<- _].
    + bind_inv H. destruct fuel; discriminate.
    + bind_inv H. by apply IH in H.
    + bind_inv H. by apply inj_ret in H as [<- _].
    + bind_inv H. bind_inv H. apply inj_ret in H as [<- _].
      apply IH in Hc, Hc0. simpl. by rewrite Hc, Hc0.
    + bind_inv H. by apply IH in H.
  - simpl in H. by apply inj_ret in H as [<- _].
Qed.

(** X11. No call of [synthesize], on any class or parameter instance and
    with any pools, returns a tree that holds a [SynthBoolConst] or a
    [SynthBoolAnd] node: the Boolean constant class builds a
    [SynthIntConst], and the Boolean operator needs the Boolean type
    class, which raises. In particular no synthesized tree
    short-circuits. *)
Theorem synthesis_builds_no_bool_node oracle cx fuel target depth p t p' :
  synthesize oracle fuel target depth cx p = (Ok t, p') →
  bool_free t = true ∧ and_free t = true.
Proof.
  intros H. apply synthesize_bool_free in H. split; [done|].
  induction t; simpl in *; try done.
  - apply andb_true_iff in H as [H1 H2]. by rewrite IHt1, IHt2.
  - auto.
  - apply andb_true_iff in H as [H1 H2]. by rewrite IHt1, IHt2.
Qed.

Lemma synthesis_builds_no_bool_node_witness :
  bool_free (SynthIntConst (LBool true)) = true
  ∧ and_free (SynthIntConst (LBool true)) = true.
Proof.
  apply (synthesis_builds_no_bool_node (fun k => k) true_pools 1
           (CClass Cls.SynthBoolConst) 1 0%nat (SynthIntConst (LBool true)) 1%nat).
  reflexivity.
Defined.

(** ** Random draws used *)

Lemma size_pos t : (1 ≤ size t)%nat.
Proof. destruct t; simpl; lia. Qed.

Lemma synthesize_draws oracle cx :
  registered cx →
  ∀ fuel target depth p t p',
    synthesize oracle fuel target depth cx p = (Ok t, p') →
    p' = (p + draws target t)%nat.
Proof.
  intros Hreg. induction fuel as [|fuel IH]; intros target depth p t p' H;
    [discriminate|].
  pose proof (size_pos t) as Hsz.
  destruct target as [c|a].
  - destruct c; simpl in H; try discriminate;
      repeat match type of H with
             | context [if ?b then _ else _] => destruct b; simpl in H
             end;
      try discriminate.
    + (* SynthInt *)
      bind_inv H. apply choice_Ok_inv in Hc as [Hc ->]. apply IH in H.
      apply choices_elem in Hc as [(op & -> & Hop)|(a & -> & Ha)].
      * apply valid_int_ops_elem in Hop as [Hop _].
        pose proof (registered_int_op _ _ Hreg Hop) as Hb.
        destruct op; try discriminate; simpl in *; lia.
      * simpl in *. lia.
    + bind_inv H. apply choice_Ok_inv in Hc as [_ ->].
      apply inj_ret in H as [<- <-]. simpl. lia.
    + bind_inv H. bind_inv H. apply inj_ret in H as [<- <-].
      apply IH in Hc, Hc0. simpl in *.
      pose proof (size_pos c). pose proof (size_pos c0). lia.
    + bind_inv H. apply inj_ret in H as [<- <-].
      apply IH in Hc. simpl in *. pose proof (size_pos c). lia.
    + bind_inv H. apply choice_Ok_inv in Hc as [_ ->].
      apply inj_ret in H as [<- <-]. simpl. lia.
    + bind_inv H. destruct fuel; discriminate.
    + (* SynthStr *)
      bind_inv H. apply choice_Ok_inv in Hc as [Hc ->]. apply IH in H.
      apply choices_elem in Hc as [(op & -> & Hop)|(a & -> & Ha)].
      * apply valid_str_ops_elem in Hop as [Hop _].
        pose proof (registered_str_op _ _ Hreg Hop) as Hb.
        destruct op; try discriminate; simpl in *; lia.
      * simpl in *. lia.
    + bind_inv H. apply choice_Ok_inv in Hc as [_ ->].
      apply inj_ret in H as [<- <-]. simpl. lia.
    + bind_inv H. bind_inv H. apply inj_ret in H as [<- <-].
      apply IH in Hc, Hc0. simpl in *.
      pose proof (size_pos c). pose proof (size_pos c0). lia.
    + (* SynthList *)
      bind_inv H. apply choice_Ok_inv in Hc as [Hc ->]. apply IH in H.
      apply list_choices_inv in Hc as [a ->]. simpl in *. lia.
  - simpl in H. apply inj_ret in H as [<- <-]. simpl. lia.
Qed.

(** X12. With registered operator pools, a successful synthesis of a
    type makes exactly one random draw per node of the returned tree
    (the choice of its production) and one more per constant (the
    choice of its literal). *)
Theorem synthesis_draw_count oracle cx fuel T depth p t p' :
  registered cx → T ∈ working_types →
  synthesize oracle fuel (CClass T) depth cx p = (Ok t, p') →
  p' = (p + size t + consts t)%nat.
Proof.
  intros Hreg HT H. apply (synthesize_draws _ _ Hreg) in H.
  unfold working_types in HT. rewrite !elem_of_cons, elem_of_nil in HT.
  destruct HT as [->|[->|[->|[]]]]; simpl in H; lia.
Qed.

Lemma synthesis_draw_count_witness :
  11%nat = (0 + size main_tree + consts main_tree)%nat.
Proof.
  apply (synthesis_draw_count (fun k => k * 7 + 1)%nat main_pools 20 Cls.SynthInt 4
           0%nat main_tree 11%nat main_pools_registered).
  - unfold working_types. apply elem_of_cons. by left.
  - reflexivity.
Defined.

(** ** The depth a tree needs *)

Lemma int_tree_depth cx t :
  ∀ d d', int_tree cx d t → Z.of_nat (nt_depth t) < d' → int_tree cx d' t.
Proof.
  induction t as [a|c|l IHl r IHr|i IHi|c|l IHl r IHr|c|l IHl r IHr];
    intros d d' Ht Hd; simpl in *; try done.
  - destruct Ht as (Hop & _ & Hl & Hr). split; [done|]. split; [lia|].
    split; [apply (IHl (d - 1))|apply (IHr (d - 1))]; try done; lia.
  - destruct Ht as (Hop & _ & Ha). split; [done|]. split; [lia|done].
Qed.

Lemma str_tree_depth cx t :
  ∀ d d', str_tree cx d t → Z.of_nat (nt_depth t) < d' → str_tree cx d' t.
Proof.
  induction t as [a|c|l IHl r IHr|i IHi|c|l IHl r IHr|c|l IHl r IHr];
    intros d d' Ht Hd; simpl in *; try done.
  destruct Ht as (Hop & _ & Hl & Hr). split; [done|]. split; [lia|].
  split; [apply (IHl (d - 1))|apply (IHr (d - 1))]; try done; lia.
Qed.

(** X13. With registered operator pools, a tree that the synthesis of a
    type returned under some depth budget is returned, for suitable
    draws, under every budget that exceeds its operator nesting: a
    larger budget loses no tree, and the nesting alone decides which
    budgets allow a tree. *)
Theorem synthesis_depth_sufficient oracle cx fuel T d p t p' d' q :
  registered cx → T ∈ working_types →
  synthesize oracle fuel (CClass T) d cx p = (Ok t, p') →
  Z.of_nat (nt_depth t) < d' →
  ∃ oracle' fuel' q',
    synthesize oracle' fuel' (CClass T) d' cx q = (Ok t, q').
Proof.
  intros Hreg HT H Hd. apply derivable_reaches.
  pose proof (synthesize_derivable _ _ _ _ _ _ _ _ Hreg HT H) as Ht.
  unfold working_types in HT. rewrite !elem_of_cons, elem_of_nil in HT.
  destruct HT as [->|[->|[->|[]]]]; simpl in *.
  - by apply (int_tree_depth cx t d).
  - by apply (str_tree_depth cx t d).
  - done.
Qed.

Lemma synthesis_depth_sufficient_witness :
  ∃ oracle' fuel' q',
    synthesize oracle' fuel' (CClass Cls.SynthInt) 9 main_pools 5%nat
    = (Ok main_tree, q').
Proof.
  apply (synthesis_depth_sufficient (fun k => k * 7 + 1)%nat main_pools 20
           Cls.SynthInt 4 0%nat main_tree 11%nat 9 5%nat main_pools_registered).
  - unfold working_types. apply elem_of_cons. by left.
  - reflexivity.
  - simpl. lia.
Defined.

(** ** Whether a type can be synthesized at all *)

Lemma nonempty_elem {A} (l : list A) : nonempty l = true → ∃ x, x ∈ l.
Proof. destruct l as [|x l]; [discriminate|]. exists x. by left. Qed.

Lemma int_tree_can cx t :
  ∀ depth, int_tree cx depth t → can_synthesize Cls.SynthInt depth cx = true.
Proof.
  unfold can_synthesize.
  induction t as [a|c|l IHl r IHr|i IHi|c|l IHl r IHr|c|l IHl r IHr];
    intros depth Ht; simpl in Ht; try done.
  - apply elem_not_nil, nonempty_true in Ht. rewrite Ht.
    by rewrite orb_true_r.
  - destruct Ht as (Hop & z & _ & Hz).
    apply elem_not_nil, nonempty_true in Hz. rewrite Hz.
    by rewrite (bool_decide_eq_true_2 _ Hop).
  - destruct Ht as (_ & Hd & Hl & _). apply IHl in Hl.
    rewrite !orb_true_iff in *. destruct Hl as [Hl|Hl]; [by left|].
    right. rewrite !andb_true_iff in *. rewrite Z.ltb_lt in *.
    destruct Hl as [[? ?] ?]. repeat split; try done; lia.
  - destruct Ht as (Hop & Hd & a & _ & Ha).
    apply elem_not_nil, nonempty_true in Ha. rewrite Ha.
    rewrite (bool_decide_eq_true_2 _ Hop). apply Z.ltb_lt in Hd. rewrite Hd.
    by rewrite orb_true_r.
Qed.

Lemma str_tree_can cx t :
  ∀ depth, str_tree cx depth t → can_synthesize Cls.SynthStr depth cx = true.
Proof.
  unfold can_synthesize.
  induction t as [a|c|l IHl r IHr|i IHi|c|l IHl r IHr|c|l IHl r IHr];
    intros depth Ht; simpl in Ht; try done.
  - apply elem_not_nil, nonempty_true in Ht. rewrite Ht.
    by rewrite orb_true_r.
  - destruct Ht as (Hop & z & _ & Hz).
    apply elem_not_nil, nonempty_true in Hz. rewrite Hz.
    by rewrite (bool_decide_eq_true_2 _ Hop).
  - destruct Ht as (_ & _ & Hl & _). by apply IHl in Hl.
Qed.

Lemma can_derivable cx T depth :
  can_synthesize T depth cx = true → ∃ t, derivable cx T depth t.
Proof.
  destruct T; simpl; try discriminate.
  - rewrite !orb_true_iff, !andb_true_iff, !bool_decide_eq_true, Z.ltb_lt.
    intros [[[Hop Hl]|Ha]|[[Hd Hop] Ha]].
    + apply nonempty_elem in Hl as [z Hz].
      exists (SynthIntConst (LInt z)). simpl. eauto.
    + apply nonempty_elem in Ha as [a Ha]. by exists (SynthArg a).
    + apply nonempty_elem in Ha as [a Ha].
      exists (SynthListLen (SynthArg a)). simpl. eauto.
  - rewrite !orb_true_iff, !andb_true_iff, !bool_decide_eq_true.
    intros [[Hop Hl]|Ha].
    + apply nonempty_elem in Hl as [s Hs].
      exists (SynthStrConst (LStr s)). simpl. eauto.
    + apply nonempty_elem in Ha as [a Ha]. by exists (SynthArg a).
  - intros Ha. apply nonempty_elem in Ha as [a Ha].
    exists (SynthArg a), a. done.
Qed.

(** X14. With registered operator pools, the synthesis of a type at a
    depth returns a tree for some random draws exactly when
    [can_synthesize] holds: the type has a leaf (an enabled constant
    with a literal, or a parameter of the type), or it is Integer above
    depth 1 with the length operator and a List parameter. Otherwise
    every run fails; for Boolean every run fails. *)
Theorem can_synthesize_iff cx T depth p :
  registered cx → T ∈ type_classes →
  (can_synthesize T depth cx = true
   ↔ ∃ oracle fuel t p',
       synthesize oracle fuel (CClass T) depth cx p = (Ok t, p')).
Proof.
  intros Hreg HT. split.
  - intros Hcan. apply can_derivable in Hcan as [t Ht].
    destruct (derivable_reaches cx T depth t p Ht) as (o & fuel & p' & H).
    by exists o, fuel, t, p'.
  - intros (o & fuel & t & p' & H).
    unfold type_classes in HT. rewrite !elem_of_cons, elem_of_nil in HT.
    destruct HT as [->|[->|[->|[->|[]]]]].
    + apply (int_tree_can cx t).
      apply (synthesize_derivable o cx fuel Cls.SynthInt depth p t p' Hreg); [|done].
      unfold working_types. apply elem_of_cons. by left.
    + destruct fuel; discriminate.
    + apply (str_tree_can cx t).
      apply (synthesize_derivable o cx fuel Cls.SynthStr depth p t p' Hreg); [|done].
      unfold working_types. apply elem_of_cons. right. apply elem_of_cons. by left.
    + pose proof (synthesize_target_tree _ _ _ Hreg _ _ _ _ _ H) as (a & _ & Ha).
      simpl. by apply nonempty_true, (elem_not_nil _ a).
Qed.

Lemma can_synthesize_iff_witness :
  (can_synthesize Cls.SynthInt 5 exhausted_pools = true
   ↔ ∃ oracle fuel t p',
       synthesize oracle fuel (CClass Cls.SynthInt) 5 exhausted_pools 0%nat
       = (Ok t, p'))
  ∧ can_synthesize Cls.SynthInt 5 exhausted_pools = false
  ∧ can_synthesize Cls.SynthInt 2 main_pools = true.
Proof.
  split; [|split; reflexivity].
  apply can_synthesize_iff.
  - unfold registered, exhausted_pools. simpl. repeat split; repeat constructor.
  - unfold type_classes. apply elem_of_cons. by left.
Defined.

(** ** Boolean output *)

(** X15. [make_func] returns no function for a Boolean output type,
    whatever the pools and the draws: with [SynthBool] it raises the
    NameError of the Boolean type class, and with [SynthBoolAnd] the
    RuntimeError of the depth test at depth 1 or below and that
    NameError above, before anything is printed. *)
Theorem make_func_bool_raises oracle fuel depth cx p :
  (output_type cx = Cls.SynthBool →
     make_func oracle (S fuel) depth cx p = (Raise (NameError "valid_int_ops"), p))
  ∧ (output_type cx = Cls.SynthBoolAnd → depth ≤ 1 →
     make_func oracle (S fuel) depth cx p
     = (Raise (RuntimeError (msg_no_depth "SynthBoolAnd")), p))
  ∧ (output_type cx = Cls.SynthBoolAnd → 1 < depth →
     make_func oracle (S (S fuel)) depth cx p
     = (Raise (NameError "valid_int_ops"), p)).
Proof.
  unfold make_func. split; [|split].
  - intros ->. reflexivity.
  - intros -> Hd. simpl. destruct (Z.leb_spec depth 1); [reflexivity|lia].
  - intros -> Hd. simpl. destruct (Z.leb_spec depth 1); [lia|reflexivity].
Qed.

Lemma make_func_bool_raises_witness :
  make_func (fun k => k) 5 2 bool_pools 0%nat
  = (Raise (NameError "valid_int_ops"), 0%nat).
Proof.
  apply (proj1 (make_func_bool_raises (fun k => k) 4 2 bool_pools 0%nat)).
  reflexivity.
Defined.

(** ** Larger environments *)

(** X16. Bindings added to the environment change no result of
    evaluation other than a KeyError: a value or a TypeError obtained in
    an environment is obtained in every environment that extends it. *)
Theorem evaluate_weaken t (e e' : gmap string value) r :
  e ⊆ e' → evaluate t e = r → (∀ msg, r ≠ Raise (KeyError msg)) →
  evaluate t e' = r.
Proof.
  intros Hsub. revert r.
  induction t as [a|c|l IHl r' IHr|i IHi|c|l IHl r' IHr|c|l IHl r' IHr];
    intros r H Hr; simpl in *; try done.
  - destruct (e !! name a) as [v|] eqn:E.
    + by rewrite (lookup_weaken _ _ _ _ E Hsub).
    + subst r. by destruct (Hr (key_error_msg (name a))).
  - destruct (evaluate l e) as [x|err] eqn:El; simpl in H.
    + rewrite (IHl (Ok x)); [simpl|done|done].
      destruct (evaluate r' e) as [y|err] eqn:Er; simpl in H.
      * by rewrite (IHr (Ok y)).
      * subst r. by rewrite (IHr (Raise err)).
    + subst r. by rewrite (IHl (Raise err)).
  - destruct (evaluate i e) as [x|err] eqn:Ei; simpl in H.
    + by rewrite (IHi (Ok x)).
    + subst r. by rewrite (IHi (Raise err)).
  - destruct (evaluate l e) as [x|err] eqn:El; simpl in H.
    + rewrite (IHl (Ok x)); [simpl|done|done].
      destruct (truthy x); [by apply IHr|done].
    + subst r. by rewrite (IHl (Raise err)).
  - destruct (evaluate l e) as [x|err] eqn:El; simpl in H.
    + rewrite (IHl (Ok x)); [simpl|done|done].
      destruct (evaluate r' e) as [y|err] eqn:Er; simpl in H.
      * by rewrite (IHr (Ok y)).
      * subst r. by rewrite (IHr (Raise err)).
    + subst r. by rewrite (IHl (Raise err)).
Qed.

Lemma evaluate_weaken_witness :
  evaluate sum_tree (<[ "z"%string := VStr "s" ]>
                       (<[ "x"%string := VInt 1 ]> {[ "y"%string := VInt 2 ]}))
  = Ok (VInt 3).
Proof.
  apply (evaluate_weaken sum_tree
           (<[ "x"%string := VInt 1 ]> {[ "y"%string := VInt 2 ]})).
  - apply insert_subseteq. reflexivity.
  - reflexivity.
  - discriminate.
Defined.

(** ** Size of synthesized trees *)

Lemma size_lt_pow t : (size t < 2 ^ S (nt_depth t))%nat.
Proof.
  induction t as [a|c|l IHl r IHr|i IHi|c|l IHl r IHr|c|l IHl r IHr];
    try (simpl; lia).
  - change (S (size l + size r) < 2 ^ S (S (Nat.max (nt_depth l) (nt_depth r))))%nat.
    pose proof (Nat.pow_le_mono_r 2 (S (nt_depth l))
                  (S (Nat.max (nt_depth l) (nt_depth r))) ltac:(lia) ltac:(lia)).
    pose proof (Nat.pow_le_mono_r 2 (S (nt_depth r))
                  (S (Nat.max (nt_depth l) (nt_depth r))) ltac:(lia) ltac:(lia)).
    rewrite (Nat.pow_succ_r' 2 (S _)). lia.
  - change (S (size i) < 2 ^ S (S (nt_depth i)))%nat.
    rewrite (Nat.pow_succ_r' 2 (S _)). lia.
  - change (S (size l + size r) < 2 ^ S (S (Nat.max (nt_depth l) (nt_depth r))))%nat.
    pose proof (Nat.pow_le_mono_r 2 (S (nt_depth l))
                  (S (Nat.max (nt_depth l) (nt_depth r))) ltac:(lia) ltac:(lia)).
    pose proof (Nat.pow_le_mono_r 2 (S (nt_depth r))
                  (S (Nat.max (nt_depth l) (nt_depth r))) ltac:(lia) ltac:(lia)).
    rewrite (Nat.pow_succ_r' 2 (S _)). lia.
  - change (S (size l + size r) < 2 ^ S (S (Nat.max (nt_depth l) (nt_depth r))))%nat.
    pose proof (Nat.pow_le_mono_r 2 (S (nt_depth l))
                  (S (Nat.max (nt_depth l) (nt_depth r))) ltac:(lia) ltac:(lia)).
    pose proof (Nat.pow_le_mono_r 2 (S (nt_depth r))
                  (S (Nat.max (nt_depth l) (nt_depth r))) ltac:(lia) ltac:(lia)).
    rewrite (Nat.pow_succ_r' 2 (S _)). lia.
Qed.

(** X17. Whatever the target and the pools, a tree synthesized with a
    depth budget [depth >= 1] has fewer than [2 ^ depth] nodes: every
    operator has at most two operands and nests at most [depth - 1]
    deep. *)
Theorem synthesis_size_bound oracle cx fuel target depth p t p' :
  synthesize oracle fuel target depth cx p = (Ok t, p') →
  1 ≤ depth →
  (size t < 2 ^ Z.to_nat depth)%nat.
Proof.
  intros H Hd. apply synthesize_nt_depth in H.
  eapply Nat.lt_le_trans; [apply size_lt_pow|].
  apply Nat.pow_le_mono_r; lia.
Qed.

Lemma synthesis_size_bound_witness : (size main_tree < 2 ^ Z.to_nat 4)%nat.
Proof.
  apply (synthesis_size_bound (fun k => k * 7 + 1)%nat main_pools 20
           (CClass Cls.SynthInt) 4 0%nat main_tree 11%nat); [reflexivity|lia].
Defined.
